(** * py-scope: the signal-feature pipeline of [data_plotter.py]

    A shallow embedding of the numerical core of [src/data_plotter.py]
    (pedestal subtraction, amplitude, charge, threshold-crossing time,
    coincidence mask, per-file job and watch loop) together with the
    properties stated about it.

    Conventions of the embedding.
    - Numbers come in two readings.  The exact reading takes a NumPy
      [float64] as an exact rational ([Qc]) or the not-a-number value:
      [num := option Qc], [None] standing for NaN (it is there because
      [np.mean] of an empty slice yields it).  It carries the statements
      about control flow, shapes, exceptions and library calls, and the
      algebraic identities of the formulas.  The binary64 reading (module
      [Binary64], on Rocq's primitive floats) evaluates the same lines of
      the script with every rounding of IEEE 754 double precision; it
      settles the statements whose truth depends on rounding.
    - A Python exception is a constructor of [exn]; a function that may
      raise returns a [result].
    - A two-dimensional array (event, sample) is a record holding the
      length of the sample axis and the list of rows.
    - The SciPy routines the script calls ([InterpolatedUnivariateSpline],
      [optimize.newton], [integrate.simps]) and the file reader are not part
      of the script: they are parameters of the sections that use them.  So
      is, in the binary64 reading, the order in which [np.mean] adds the
      samples of a window. *)

From Stdlib Require Import ZArith QArith Qcanon Lia Ascii PrimFloat.
From Stdlib Require Uint63.
From stdpp Require Import base decidable option numbers list strings gmap.

Set Default Proof Using "Type".
Set Warnings "-clear-no-such-hyp".
Set Warnings "-inexact-float".

(** ** Numbers *)

Module Num.

Definition num : Type := option Qc.
Definition NaN : num := None.

Definition qc (n : Z) (d : positive) : Qc := Q2Qc (n # d).
Definition fin (n : Z) (d : positive) : num := Some (qc n d).
Definition of_nat (n : nat) : Qc := Qc_of_Z (Z.of_nat n).

Definition lift2 (f : Qc → Qc → Qc) (x y : num) : num :=
  match x, y with
  | Some a, Some b => Some (f a b)
  | _, _ => NaN
  end.

Definition add : num → num → num := lift2 Qcplus.
Definition sub : num → num → num := lift2 Qcminus.
Definition mul : num → num → num := lift2 Qcmult.
Definition abs (x : num) : num :=
  match x with
  | Some a => Some (if decide (a < 0)%Qc then (- a)%Qc else a)
  | None => NaN
  end.

(** A product of a Python scalar and an array element. *)
Definition scale (c : Qc) (x : num) : num := mul (Some c) x.

(** The quotient of an array element by a nonzero Python scalar. *)
Definition divc (x : num) (c : Qc) : num :=
  match x with
  | Some a => Some (a / c)%Qc
  | None => NaN
  end.

(** IEEE comparisons: every comparison with NaN is false. *)
Definition ltb (x y : num) : bool :=
  match x, y with
  | Some a, Some b => bool_decide (a < b)%Qc
  | _, _ => false
  end.
Definition gtb (x y : num) : bool := ltb y x.

End Num.

Import Num.

(** ** Exceptions and results *)

Inductive exn : Set :=
  | ZeroDivisionError
  | ValueError
  | IndexError
  | RuntimeError
  | OSError.

Inductive result (A : Type) : Type :=
  | Ok (a : A)
  | Raise (e : exn).
Arguments Ok {A} a.
Arguments Raise {A} e.

Global Instance result_ret : MRet result := λ A a, Ok a.
Global Instance result_bind : MBind result := λ A B f m,
  match m with
  | Ok a => f a
  | Raise e => Raise e
  end.
Global Instance result_fmap : FMap result := λ A B f m,
  match m with
  | Ok a => Ok (f a)
  | Raise e => Raise e
  end.

Definition raises {A} (m : result A) : Prop :=
  match m with Ok _ => False | Raise _ => True end.

(** ** Arrays *)

(** A 2-D array: [shape1] is the length of the sample axis (it is kept
    apart from the rows because an array may have no row at all and still
    a sample axis); [shape0] is the number of rows. *)
Record array2 (A : Type) : Type := Array2 {
  shape1 : nat;
  rows : list (list A)
}.
Arguments Array2 {A} shape1 rows.
Arguments shape1 {A} a.
Arguments rows {A} a.

Definition shape0 {A} (a : array2 A) : nat := length (rows a).

Definition wf {A} (a : array2 A) : Prop :=
  Forall (λ r, length r = shape1 a) (rows a).

Definition amap {A B} (f : A → B) (a : array2 A) : array2 B :=
  Array2 (shape1 a) ((λ r : list A, f <$> r) <$> rows a).

(** [l[:k]] for a Python integer [k]: the first [k] items, all of them when
    [k] is past the end, and all but the last [-k] when [k] is negative. *)
Definition slice_to {A} (k : Z) (l : list A) : list A :=
  if decide (0 ≤ k)%Z then take (Z.to_nat k) l
  else take (length l - Z.to_nat (- k)) l.

Definition qsum (l : list Qc) : Qc := foldr Qcplus (Q2Qc 0) l.

(** [np.mean]: the sum over the count; NaN (with a warning, no exception)
    when there is nothing to average. *)
Definition np_mean (l : list Qc) : num :=
  match l with
  | [] => NaN
  | _ => Some (qsum l / of_nat (length l))%Qc
  end.

(** [np.max] of one row: NaN as soon as one item is NaN. *)
Definition num_max (x y : num) : num :=
  match x, y with
  | Some a, Some b => Some (if decide (a < b)%Qc then b else a)
  | _, _ => NaN
  end.

Definition row_max (r : list num) : num :=
  match r with
  | [] => NaN
  | x :: r' => foldl num_max x r'
  end.

(** [np.argmax] of one row: the first NaN if there is one, otherwise the
    first position of the largest item.  [argmax_from best i r] scans [r]
    whose head has position [i]; [best] is the pair (position, value) kept
    so far. *)
Fixpoint argmax_from (best : nat * num) (i : nat) (r : list num) : nat :=
  match best.2 with
  | None => best.1
  | Some b =>
      match r with
      | [] => best.1
      | x :: r' =>
          match x with
          | None => i
          | Some a =>
              if decide (b < a)%Qc then argmax_from (i, x) (S i) r'
              else argmax_from best (S i) r'
          end
      end
  end.

Definition row_argmax (r : list num) : nat :=
  match r with
  | [] => 0
  | x :: r' => argmax_from (0, x) 1 r'
  end.

(** [np.argmin], the same with the order reversed. *)
Fixpoint argmin_from (best : nat * num) (i : nat) (r : list num) : nat :=
  match best.2 with
  | None => best.1
  | Some b =>
      match r with
      | [] => best.1
      | x :: r' =>
          match x with
          | None => i
          | Some a =>
              if decide (a < b)%Qc then argmin_from (i, x) (S i) r'
              else argmin_from best (S i) r'
          end
      end
  end.

Definition row_argmin (r : list num) : nat :=
  match r with
  | [] => 0
  | x :: r' => argmin_from (0, x) 1 r'
  end.

(** A reduction over the sample axis raises [ValueError] when that axis is
    empty, whatever the number of rows. *)
Definition np_max_axis (a : array2 num) : result (list num) :=
  if decide (shape1 a = 0) then Raise ValueError
  else Ok (fmap row_max (rows a)).

Definition np_argmax_axis (a : array2 num) : result (list nat) :=
  if decide (shape1 a = 0) then Raise ValueError
  else Ok (fmap row_argmax (rows a)).

(** [np.arange(n) * dt] *)
Definition arange_times (n : nat) (dt : Qc) : list Qc :=
  fmap (λ i, (of_nat i * dt)%Qc) (seq 0 n).

(** ** Voltage normalisation

    The exact reading of the normaliser; [Binary64.calculate_voltages]
    further down is the same function with the rounding of binary64. *)

(** [calculate_voltages_raw]: the per-event mean of [v_in[:, :pedestal_length]]
    is subtracted from every sample of the event. *)
Definition pedestal (pedestal_length : Z) (row : list Qc) : num :=
  np_mean (slice_to pedestal_length row).

Definition calculate_voltages_raw (v_in : array2 Qc) (pedestal_length : Z)
  : array2 num :=
  Array2 (shape1 v_in)
    ((λ row : list Qc,
        (λ x, sub (Some x) (pedestal pedestal_length row)) <$> row)
       <$> rows v_in).

(** [calculate_voltages]: [1.0/gain_post] is a division of Python scalars
    and raises on zero before anything else is computed. *)
Definition calculate_voltages (v_in : array2 Qc) (gain_post : Qc)
    (pedestal_length : Z) : result (array2 num) :=
  if decide (gain_post = Q2Qc 0) then Raise ZeroDivisionError
  else
    let gain_post_inv := (Q2Qc 1 / gain_post)%Qc in
    Ok (amap (scale gain_post_inv) (calculate_voltages_raw v_in pedestal_length)).

(** [a[i]] on a Python sequence. *)
Definition index {A} (l : list A) (i : nat) : result A :=
  match l !! i with
  | Some x => Ok x
  | None => Raise IndexError
  end.

(** ** Amplitude *)

(** The peak value per event, as [plot_amplitude] and [plotting_job]
    compute it: [np.max(calculate_voltages(...), axis=-1)]. *)
Definition amplitude (v_in : array2 Qc) (gain_post : Qc) (pedestal_length : Z)
  : result (list num) :=
  v_preamp_pedsub ← calculate_voltages v_in gain_post pedestal_length;
  np_max_axis v_preamp_pedsub.

(** [plot_amplitude] up to the histogram: the data handed to [ax.hist]. *)
Definition plot_amplitude (dataset : list (array2 Qc)) (ich : nat)
    (gain_post : Qc) (pedestal_length : Z) : result (list num) :=
  v_in ← index dataset ich;
  amplitude v_in gain_post pedestal_length.

(** ** Charge *)

Definition wsum (ws ys : list num) : num :=
  foldr add (Some (Q2Qc 0)) (zip_with mul ws ys).

Section Charge.

(** [integrate.simps(y, x, axis=-1)] is a quadrature rule: for the
    abscissae [x] it either raises or returns, for every row of [y], the
    sum of the samples weighted by coefficients that depend on [x] only. *)
Variable simps_weights : list Qc → result (list num).

Definition simps (y : array2 num) (x : list Qc) : result (list num) :=
  ws ← simps_weights x;
  Ok (fmap (wsum ws) (rows y)).

Definition calculate_charge (v_in : array2 Qc) (dt transCond gain_post : Qc)
    (pedestal_length : Z) (charge_norm : Qc) : result (list num) :=
  v_preamp_pedsub ← calculate_voltages v_in gain_post pedestal_length;
  let time := arange_times (shape1 v_in) dt in
  if decide (transCond = Q2Qc 0) then Raise ZeroDivisionError
  else
    let norm := (charge_norm / transCond)%Qc in
    simps (amap (scale norm) v_preamp_pedsub) time.

End Charge.

(** ** Threshold-crossing time *)

(** The calls [calculate_tcross] makes into SciPy, in program order. *)
Inductive call : Type :=
  | SplineFit (evt : nat)
  | RootSearch (evt : nat) (x0 : Qc) (maxiter : nat).

Definition call_event (c : call) : nat :=
  match c with
  | SplineFit evt => evt
  | RootSearch evt _ _ => evt
  end.

(** A computation that logs its library calls and may raise: the log is
    kept up to the point of the exception. *)
Definition traced (A : Type) : Type := (list call * result A)%type.

Global Instance traced_ret : MRet traced := λ A a, ([], Ok a).
Global Instance traced_bind : MBind traced := λ A B f m,
  match m.2 with
  | Ok a => (m.1 ++ (f a).1, (f a).2)
  | Raise e => (m.1, Raise e)
  end.

Definition pure {A} (r : result A) : traced A := ([], r).
Definition calls {A} (m : traced A) : list call := m.1.
Definition outcome {A} (m : traced A) : result A := m.2.

Definition sentinel : num := Some (- Q2Qc 1)%Qc.

Section Tcross.

(** [InterpolatedUnivariateSpline(x, y)] builds (or fails to build) a
    callable; [optimize.newton(f, x0=..., maxiter=...)] returns a number
    or raises. *)
Variable InterpolatedUnivariateSpline :
  list Qc → list num → result (Qc → num).
Variable newton : (Qc → num) → Qc → nat → result num.

(** The initial guess of the root search:
    [time[np.argmin(abs(spline(time[:idx]) - thr))]]. *)
Definition start_index (spline : Qc → num) (time : list Qc) (idx : nat)
    (thr : num) : nat :=
  row_argmin (fmap (λ t, abs (sub (spline t) thr)) (take idx time)).

(** The body of the loop over events. *)
Definition tcross_event (time : list Qc) (v_preamp_pedsub : array2 num)
    (idx_max : list nat) (threshold : list num) (evt : nat) : traced num :=
  match idx_max !! evt, rows v_preamp_pedsub !! evt, threshold !! evt with
  | Some idx, Some row, Some thr =>
      if decide (0 < idx) then
        match InterpolatedUnivariateSpline time row with
        | Raise e => ([SplineFit evt], Raise e)
        | Ok spline =>
            match time !! start_index spline time idx thr with
            | None => ([SplineFit evt], Raise IndexError)
            | Some start =>
                ([SplineFit evt; RootSearch evt start 500],
                 newton (λ x, sub (spline x) thr) start 500)
            end
        end
      else ([], Ok sentinel)
  | _, _, _ => ([], Raise IndexError)
  end.

(** One turn of [for evt in range(...)]: run the body and store its value
    in [t0s[evt]]; nothing more happens once an exception is raised. *)
Definition tcross_step (body : nat → traced num) (st : traced (list num))
    (evt : nat) : traced (list num) :=
  t0s ← st;
  t0 ← body evt;
  mret (<[evt := t0]> t0s).

Definition tcross_loop (body : nat → traced num) (n : nat)
  : traced (list num) :=
  foldl (tcross_step body) (mret (replicate n (Some (Q2Qc 0)))) (seq 0 n).

Definition calculate_tcross (v_in : array2 Qc) (percent_thresh dt gain_post : Qc)
    (pedestal_length : Z) : traced (list num) :=
  v_preamp_pedsub ← pure (calculate_voltages v_in gain_post pedestal_length);
  let time := arange_times (shape1 v_in) dt in
  idx_max ← pure (np_argmax_axis v_preamp_pedsub);
  peak ← pure (np_max_axis v_preamp_pedsub);
  let threshold := fmap (λ m, mul m (Some percent_thresh)) peak in
  tcross_loop (tcross_event time v_preamp_pedsub idx_max threshold)
              (shape0 v_in).

End Tcross.

(** ** Histogram inputs *)

(** Boolean-mask indexing [a[mask]]. *)
Definition select {A} (mask : list bool) (l : list A) : list A :=
  omap (λ p : bool * A, if p.1 then Some p.2 else None) (zip mask l).

Definition valid (t0 : num) : bool := gtb t0 (fin (-5) 10).

(** [np.min]/[np.max] of a whole array raise [ValueError] on an empty one;
    [plot_tcross] and [plot_charge] take them for the histogram range. *)
Definition nonempty_or_raise {A} (l : list A) : result (list A) :=
  match l with
  | [] => Raise ValueError
  | _ => Ok l
  end.

(** [plot_tcross] up to the drawing: the values that are histogrammed.  The
    fit is off in every call of the script ([dofit=False]). *)
Definition plot_tcross (t0s : list num) (trigger_t0s : option (list num))
  : result (list num) :=
  let mask :=
    match trigger_t0s with
    | None => fmap valid t0s
    | Some tr => zip_with andb (fmap valid t0s) (fmap valid tr)
    end in
  let clean_t0s := select mask t0s in
  let to_plot :=
    match trigger_t0s with
    | None => clean_t0s
    | Some tr => zip_with sub clean_t0s (select mask tr)
    end in
  nonempty_or_raise to_plot.

(** ** The job run on one capture file *)

Record capture : Type := Capture {
  data : list (array2 Qc);     (* channel, event, sample *)
  chmask : list bool;          (* attrs['chmask'] *)
  attr_dt : Qc                 (* attrs['dt'] *)
}.

Record config : Type := Config {
  trigger : nat;
  transcond_highgain : Qc;
  transcond_lowgain : Qc;
  gains : list Qc;
  thresholds : list Qc
}.

(** The module-level [scope_config], with [gain_post = -1.0]. *)
Definition scope_config : config :=
  {| trigger := 2;
     transcond_highgain := qc 15700 1;
     transcond_lowgain := qc 4400 1;
     gains := [qc (-1) 1; qc (-1) 1; qc (-1) 1; qc 1 1];
     thresholds := [qc 2 10; qc 2 10; qc 2 10; qc 5 10] |}.

(** The defaults of the keyword arguments. *)
Definition default_pedestal_length : Z := 400.
Definition default_charge_norm : Qc := qc (10 ^ 15) 1.

(** [amps > thr], elementwise. *)
Definition above (thr : num) (amps : list num) : list bool :=
  fmap (λ a, gtb a thr) amps.

(** [ch1 & ch2 & ch3] *)
Definition and3 (ch1 ch2 ch3 : list bool) : list bool :=
  zip_with andb (zip_with andb ch1 ch2) ch3.

(** Lines 241-244 of [plotting_job]: the three gated channels, each tested
    against the literal 0.015. *)
Definition gate_level : num := fin 15 1000.

Definition gate (d : list (array2 Qc)) (cfg : config) (ch : nat)
  : result (list bool) :=
  v_in ← index d ch;
  g ← index (gains cfg) ch;
  pk ← amplitude v_in g default_pedestal_length;
  mret (above gate_level pk).

Definition coincidence_mask (d : list (array2 Qc)) (cfg : config)
  : result (list bool) :=
  ch1 ← gate d cfg 0;
  ch2 ← gate d cfg 1;
  ch3 ← gate d cfg 2;
  mret (and3 ch1 ch2 ch3).

(** [data[:, mask, :]] *)
Definition mask_events (mask : list bool) (d : list (array2 Qc))
  : list (array2 Qc) :=
  fmap (λ a, Array2 (shape1 a) (select mask (rows a))) d.

(** What one run of [plotting_job] hands to the renderer. *)
Record report : Type := Report {
  rp_mask : list bool;
  rp_trigger_t0s : option (list num);
  rp_measure_t0s : list (nat * list num);
  rp_delta : list (nat * list num)
}.

Section Job.

Variable extract_dataset : string → result capture.
Variable simps_weights : list Qc → result (list num).
Variable InterpolatedUnivariateSpline :
  list Qc → list num → result (Qc → num).
Variable newton : (Qc → num) → Qc → nat → result num.

(** [plot_charge] up to the drawing; [np.min(charges)] raises when no
    event is left. *)
Definition plot_charge (dataset : list (array2 Qc)) (ich : nat)
    (dt transCond gain_post : Qc) : result (list num) :=
  v_in ← index dataset ich;
  charges ← calculate_charge simps_weights v_in dt transCond gain_post
              default_pedestal_length default_charge_norm;
  nonempty_or_raise charges.

(** The state of the loop over the four channels. *)
Definition channel_state : Type :=
  (option (list num) * list (nat * list num))%type.

Definition channel_step (c : capture) (cfg : config) (mask : list bool)
    (st : result channel_state) (ch : nat) : result channel_state :=
  s ← st;
  active ← index (chmask c) ch;
  if (active : bool) then
    thegain ← index (gains cfg) ch;
    _ ← plot_amplitude (mask_events mask (data c)) ch thegain
          default_pedestal_length;
    _ ← plot_charge (mask_events mask (data c)) ch (attr_dt c)
          (transcond_lowgain cfg) thegain;
    v_in ← index (data c) ch;
    p ← index (thresholds cfg) ch;
    t0s ← outcome (calculate_tcross InterpolatedUnivariateSpline newton
                     v_in p (attr_dt c) thegain default_pedestal_length);
    _ ← plot_tcross t0s None;
    if decide (ch = trigger cfg) then mret (Some t0s, s.2)
    else mret (s.1, s.2 ++ [(ch, t0s)])
  else mret s.

Definition delta_step (trigger_t0s : option (list num))
    (acc : result (list (nat * list num))) (item : nat * list num)
  : result (list (nat * list num)) :=
  done ← acc;
  d ← plot_tcross item.2 trigger_t0s;
  mret (done ++ [(item.1, d)]).

Definition plotting_job (afile : string) (cfg : config) : result report :=
  let tc := transcond_lowgain cfg in
  c ← extract_dataset afile;
  mask ← coincidence_mask (data c) cfg;
  s ← foldl (channel_step c cfg mask) (Ok (None, [])) (seq 0 4);
  deltas ← foldl (delta_step s.1) (Ok []) s.2;
  mret (Report mask s.1 s.2 deltas).

(** ** The watch loop *)

(** The loop either is still running, with the set of files it has
    processed, or has been ended by an exception. *)
Inductive watcher : Type :=
  | Running (processed_files : gset string)
  | Terminated (e : exn) (processed_files : gset string).

(** [for afile in files_to_process: plotting_job(...); processed_files.add(afile)] *)
Fixpoint process_files (cfg : config) (files : list string)
    (processed_files : gset string) : watcher :=
  match files with
  | [] => Running processed_files
  | afile :: rest =>
      match plotting_job afile cfg with
      | Ok _ => process_files cfg rest ({[afile]} ∪ processed_files)
      | Raise e => Terminated e processed_files
      end
  end.

(** One turn of [while True], given what [glob] finds at that moment.
    The set difference is walked in the order of [elements]. *)
Definition watch_turn (cfg : config) (w : watcher) (files : gset string)
  : watcher :=
  match w with
  | Terminated _ _ => w
  | Running processed_files =>
      let files_to_process := files ∖ processed_files in
      if decide (size files_to_process = 0) then Running processed_files
      else process_files cfg (elements files_to_process) processed_files
  end.

(** The loop against a sequence of directory listings, one per turn. *)
Definition watch_loop (cfg : config) (listings : list (gset string))
  : watcher :=
  foldl (watch_turn cfg) (Running ∅) listings.

End Job.

(** ** Reference instances of the library routines

    Exact-arithmetic renderings of the three SciPy routines, used to run the
    pipeline on concrete captures.  The general theorems below do not
    depend on them: they hold for every instance of the parameters. *)

Module Scipy.

Definition div (x y : num) : num :=
  match x, y with
  | Some a, Some b => if decide (b = Q2Qc 0) then NaN else Some (a / b)%Qc
  | _, _ => NaN
  end.

Definition eqb (x y : num) : bool :=
  match x, y with
  | Some a, Some b => bool_decide (a = b)
  | _, _ => false
  end.

Definition leb (x y : num) : bool :=
  match x, y with
  | Some a, Some b => bool_decide (a ≤ b)%Qc
  | _, _ => false
  end.

(** *** Interpolation through four samples

    With degree 3 and four data points the interpolating spline has no
    interior knot: it is the cubic polynomial through the four points,
    written here in Lagrange form.  This instance is only run on events of
    four samples; it declines any other input with [ValueError]. *)
Definition lagrange_basis (xs : list Qc) (i : nat) (xi x : Qc) : Qc :=
  foldr Qcmult (Q2Qc 1)
    (imap (λ j xj, if decide (j = i) then Q2Qc 1
                   else ((x - xj) / (xi - xj))%Qc) xs).

Definition lagrange (xs : list Qc) (ys : list num) (x : Qc) : num :=
  foldr add (Some (Q2Qc 0))
    (imap (λ i p, scale (lagrange_basis xs i p.1 x) p.2) (zip xs ys)).

Definition cubic_through_four (xs : list Qc) (ys : list num)
  : result (Qc → num) :=
  if decide (length xs = 4 ∧ length ys = 4 ∧ NoDup xs)
  then Ok (lagrange xs ys)
  else Raise ValueError.

(** *** The secant iteration of [optimize.newton]

    Without a derivative [newton] runs the secant method from [x0] and
    [x0*(1 + 1e-4) ± 1e-4], stops when two successive iterates are within
    [tol = 1.48e-8], and raises [RuntimeError] when [maxiter] turns did
    not get there. *)
Definition tol : num := fin 148 10000000000.
Definition eps : Qc := qc 1 10000.

Definition secant (p0 q0 p1 q1 : num) : num :=
  if gtb (abs q1) (abs q0)
  then div (add (mul (div (sub (Some (Q2Qc 0)) q0) q1) p1) p0)
           (sub (Some (Q2Qc 1)) (div q0 q1))
  else div (add (mul (div (sub (Some (Q2Qc 0)) q1) q0) p0) p1)
           (sub (Some (Q2Qc 1)) (div q1 q0)).

Definition apply (f : Qc → num) (x : num) : num :=
  match x with Some a => f a | None => NaN end.

Fixpoint secant_loop (f : Qc → num) (p0 q0 p1 q1 : num) (fuel : nat)
  : result num :=
  match fuel with
  | O => Raise RuntimeError
  | S fuel' =>
      if eqb q1 q0 then
        if eqb p1 p0 then Ok (div (add p1 p0) (Some (Q2Qc 1 + Q2Qc 1)%Qc))
        else Raise RuntimeError
      else
        let p := secant p0 q0 p1 q1 in
        if leb (abs (sub p p1)) tol then Ok p
        else secant_loop f p1 q1 p (apply f p) fuel'
  end.

Definition newton (f : Qc → num) (x0 : Qc) (maxiter : nat) : result num :=
  let p0 := x0 in
  let p1 := (x0 * (Q2Qc 1 + eps))%Qc in
  let p1 := if decide (p1 < 0)%Qc then (p1 - eps)%Qc else (p1 + eps)%Qc in
  let q0 := f p0 in
  let q1 := f p1 in
  if ltb (abs q1) (abs q0)
  then secant_loop f (Some p1) q1 (Some p0) q0 maxiter
  else secant_loop f (Some p0) q0 (Some p1) q1 maxiter.

(** *** Composite Simpson weights on a uniform grid

    [np.arange(n)*dt] is a uniform grid of step [h].  For an odd number of
    samples the weights are [h/3 * (1, 4, 2, ..., 4, 1)]; for an even
    number the rule on the first [n-1] samples plus a trapezoid on the
    last interval is averaged with its mirror image.  A zero step makes
    every weight NaN (0/0 in the library's ratio of steps), and an empty
    sample axis raises [IndexError]. *)
Fixpoint simpson_tail (panels : nat) : list Qc :=
  match panels with
  | O => []
  | S k => qc 4 1 :: (match k with O => qc 1 1 | S _ => qc 2 1 end)
             :: simpson_tail k
  end.

Definition simpson_pattern (panels : nat) : list Qc :=
  match panels with
  | O => [Q2Qc 0]
  | S _ => qc 1 1 :: simpson_tail panels
  end.

Definition odd_weights (h : Qc) (n : nat) : list Qc :=
  fmap (λ w, (h / qc 3 1 * w)%Qc) (simpson_pattern (n / 2)).

Definition add_lists (a b : list Qc) : list Qc := zip_with Qcplus a b.

Definition even_weights (h : Qc) (n : nat) : list Qc :=
  let first := odd_weights h (n - 1) ++ [Q2Qc 0] in
  let last := Q2Qc 0 :: odd_weights h (n - 1) in
  let trap_last := replicate (n - 2) (Q2Qc 0) ++ [(h / qc 2 1)%Qc; (h / qc 2 1)%Qc] in
  let trap_first := [(h / qc 2 1)%Qc; (h / qc 2 1)%Qc] ++ replicate (n - 2) (Q2Qc 0) in
  fmap (λ w, (w / qc 2 1)%Qc)
      (add_lists (add_lists first trap_last) (add_lists last trap_first)).

Definition simps_weights (x : list Qc) : result (list num) :=
  match x with
  | [] => Raise IndexError
  | [_] => Ok [Some (Q2Qc 0)]
  | x0 :: x1 :: _ =>
      let h := (x1 - x0)%Qc in
      let n := length x in
      if decide (h = Q2Qc 0) then Ok (replicate n NaN)
      else if decide (n `mod` 2 = 0) then Ok (fmap Some (even_weights h n))
      else Ok (fmap Some (odd_weights h n))
  end.

End Scipy.

(** ** The loop of [calculate_tcross], event by event *)

Definition loop_from (body : nat → traced num) (init : list num) (n : nat)
  : traced (list num) :=
  foldl (tcross_step body) (mret init) (seq 0 n).

(** The body of the loop for one event, with the values that
    [calculate_tcross] computes before the loop. *)
Definition event_run (spline_fit : list Qc → list num → result (Qc → num))
    (newton : (Qc → num) → Qc → nat → result num)
    (v_in : array2 Qc) (percent_thresh dt gain_post : Qc)
    (pedestal_length : Z) (evt : nat) : traced num :=
  v_preamp_pedsub ← pure (calculate_voltages v_in gain_post pedestal_length);
  let time := arange_times (shape1 v_in) dt in
  idx_max ← pure (np_argmax_axis v_preamp_pedsub);
  peak ← pure (np_max_axis v_preamp_pedsub);
  let threshold := (λ m, mul m (Some percent_thresh)) <$> peak in
  tcross_event spline_fit newton time v_preamp_pedsub idx_max threshold evt.

(** ** Sample captures *)

(** A capture of one event whose three gated channels have amplitudes
    0.02, 0.02 and 0.001 under the gains of [scope_config]. *)
Definition scenario_data : list (array2 Qc) :=
  [ Array2 2 [[qc 4 100; qc 0 1]];
    Array2 2 [[qc 4 100; qc 0 1]];
    Array2 2 [[qc 2 1000; qc 0 1]];
    Array2 2 [[qc 0 1; qc 0 1]] ].

(** Two events of four samples: the first has its maximum at sample 0, the
    second rises, dips, and peaks at sample 3. *)
Definition two_events : array2 Qc :=
  Array2 4 [ [qc 5 1; qc 1 1; qc 2 1; qc 3 1];
             [qc 0 1; qc 1 1; qc 1 2; qc 2 1] ].

Definition two_events_normalised : array2 num :=
  Array2 4 [ [fin 0 1; fin (-4) 1; fin (-3) 1; fin (-2) 1];
             [fin 0 1; fin 1 1; fin 1 2; fin 2 1] ].

(** The second event alone. *)
Definition bump : array2 Qc :=
  Array2 4 [ [qc 0 1; qc 1 1; qc 1 2; qc 2 1] ].

(** A root search that gives up. *)
Definition stalled_newton (f : Qc → num) (x0 : Qc) (maxiter : nat)
  : result num := Raise RuntimeError.

(** Two captures of one event and four samples per channel, channels 1 to
    3 active: one with a pulse on the three channels, one with no signal
    at all. *)
Definition pulse : list Qc := [qc 4 1; qc 2 1; qc (-1) 1; qc (-5) 1].
Definition flat : list Qc := [qc 0 1; qc 0 1; qc 0 1; qc 0 1].

Definition pulse_capture : capture :=
  Capture [Array2 4 [pulse]; Array2 4 [pulse]; Array2 4 [pulse];
           Array2 4 [flat]]
          [true; true; true; false] (qc 1 10).

Definition quiet_capture : capture :=
  Capture [Array2 4 [flat]; Array2 4 [flat]; Array2 4 [flat];
           Array2 4 [flat]]
          [true; true; true; false] (qc 1 10).

(** A directory: [quiet.hdf5] holds the quiet capture, [pulse.hdf5] the
    other one, and nothing else can be opened. *)
Definition disk (afile : string) : result capture :=
  if decide (afile = "quiet.hdf5") then Ok quiet_capture
  else if decide (afile = "pulse.hdf5") then Ok pulse_capture
  else Raise OSError.

(** ** The statements as they are worded *)

(** The claim of C5 as it is worded: a window that is not shorter than the
    sample axis makes the normaliser fail. *)
Definition window_checked : Prop :=
  ∀ (v_in : array2 Qc) (gain_post : Qc) (pedestal_length : Z),
    wf v_in →
    (Z.of_nat (shape1 v_in) ≤ pedestal_length)%Z →
    raises (calculate_voltages v_in gain_post pedestal_length).

(** The claim of C1 as it is worded, through one of its consequences: if
    [t0] is the first time at which the waveform reaches the threshold, the
    waveform is below the threshold at every sample time before [t0]. *)
Definition not_reached_before (time : list Qc) (row : list num)
    (threshold t0 : num) : Prop :=
  ∀ i ti vi, time !! i = Some ti → row !! i = Some vi →
    ltb (Some ti) t0 = true → ltb vi threshold = true.

Definition returns_first_crossing
    (spline_fit : list Qc → list num → result (Qc → num))
    (newton : (Qc → num) → Qc → nat → result num) : Prop :=
  ∀ (v_in : array2 Qc) (percent_thresh dt gain_post : Qc)
    (pedestal_length : Z) (v : array2 num) (evt : nat) (row : list num)
    (t0s : list num),
    (Q2Qc 0 < percent_thresh)%Qc → (percent_thresh < Q2Qc 1)%Qc →
    calculate_voltages v_in gain_post pedestal_length = Ok v →
    rows v !! evt = Some row →
    0 < row_argmax row →
    outcome (calculate_tcross spline_fit newton v_in percent_thresh dt
               gain_post pedestal_length) = Ok t0s →
    ∃ t0, t0s !! evt = Some t0
          ∧ not_reached_before (arange_times (shape1 v_in) dt) row
              (mul (row_max row) (Some percent_thresh)) t0.

(** The claim of C9 as it is worded: whatever the directory shows, the
    loop is never ended by an exception, and a file whose job succeeds and
    that was listed is processed. *)
Definition files_isolated (job : string → config → result report)
    (loop : config → list (gset string) → watcher) (cfg : config) : Prop :=
  ∀ (listings : list (gset string)),
    ∃ processed_files,
      loop cfg listings = Running processed_files
      ∧ ∀ files afile r, files ∈ listings → afile ∈ files →
          job afile cfg = Ok r → afile ∈ processed_files.

(** ** Reading a capture *)

(** What [extract_dataset] reads in the file: the stored waveform dataset,
    one row per recorded channel with the events of the channel one after
    the other, and its attributes ([vertical i] stands for
    [attrs['vertical{i+1}']], the pair of the scale and the offset). *)
Record h5_dataset : Type := H5Dataset {
  stored : array2 Qc;
  vertical : nat → Qc * Qc;
  nPt : nat;
  h5_chmask : list bool;
  h5_dt : Qc
}.

(** [row.reshape(events, npoints)] *)
Definition reshape2 (events npoints : nat) (row : list Qc) : array2 Qc :=
  Array2 npoints
    ((λ j, take npoints (drop (j * npoints) row)) <$> seq 0 events).

(** One channel of [np.zeros(...).reshape((4, events, npoints))] *)
Definition zeros2 (events npoints : nat) : array2 Qc :=
  Array2 npoints (replicate events (replicate npoints (Q2Qc 0))).

(** [(a - yzero) * ymult] *)
Definition calibrate (ymult yzero : Qc) (a : array2 Qc) : array2 Qc :=
  amap (λ x, ((x - yzero) * ymult)%Qc) a.

(** One turn of [for i in range(4)]: the state is [data_out] and [ich],
    the next stored row to read. *)
Definition extract_step (f : h5_dataset) (events : nat)
    (st : result (list (array2 Qc) * nat)) (i : nat)
  : result (list (array2 Qc) * nat) :=
  s ← st;
  active ← index (h5_chmask f) i;
  if (active : bool) then
    row ← index (rows (stored f)) s.2;
    mret (<[i := calibrate (vertical f i).1 (vertical f i).2
                   (reshape2 events (nPt f) row)]> s.1,
          S s.2)
  else mret s.

(** [extract_dataset] on an opened file.  The number of events is the
    integer quotient of the row length by [nPt] (0 when [nPt] is 0, as for
    NumPy integers); building [data_out] raises [ValueError] when the row
    length is not [events * nPt]. *)
Definition extract_capture (f : h5_dataset) : result capture :=
  let npoints := nPt f in
  let events := shape1 (stored f) / npoints in
  if decide (4 * shape1 (stored f) = 4 * events * npoints) then
    s ← foldl (extract_step f events)
          (Ok (replicate 4 (zeros2 events npoints), 0)) (seq 0 4);
    mret (Capture s.1 (h5_chmask f) (h5_dt f))
  else Raise ValueError.

(** [extract_dataset(filename)]: opening the file and its dataset is the
    part of [h5py]. *)
Definition extract_dataset (h5_open : string → result h5_dataset)
    (filename : string) : result capture :=
  f ← h5_open filename;
  extract_capture f.

(** The number of active channels below channel [i]: the stored row that
    channel [i] reads. *)
Definition active_before (mask : list bool) (i : nat) : nat :=
  length (filter (λ b : bool, b = true) (take i mask)).

(** ** File names *)

(** A Python [str] is the list of its characters; [s[:k]] is [slice_to]. *)
Definition str : Type := list Ascii.ascii.

(** [s.rfind(c)]: the position of the last [c], -1 when there is none. *)
Fixpoint rfind_last (c : Ascii.ascii) (s : str) : option nat :=
  match s with
  | [] => None
  | x :: s' =>
      match rfind_last c s' with
      | Some i => Some (S i)
      | None => if decide (x = c) then Some 0 else None
      end
  end.

Definition rfind (c : Ascii.ascii) (s : str) : Z :=
  match rfind_last c s with
  | Some i => Z.of_nat i
  | None => (-1)%Z
  end.

(** [s.split(c)]: the pieces between the separators, at least one piece. *)
Fixpoint split (c : Ascii.ascii) (s : str) : list str :=
  match s with
  | [] => [[]]
  | x :: s' =>
      if decide (x = c) then [] :: split c s'
      else match split c s' with
           | w :: ws => (x :: w) :: ws
           | [] => [[x]]
           end
  end.

(** [c.join(pieces)] *)
Fixpoint join (c : Ascii.ascii) (pieces : list str) : str :=
  match pieces with
  | [] => []
  | [w] => w
  | w :: ws => w ++ c :: join c ws
  end.

(** [pieces[-1]] of a list that [split] returned. *)
Definition last_piece (pieces : list str) : str := default [] (last pieces).

(** The name of the report of a capture file, in the watch loop:
    [afile[:afile.rfind('.')].split('/')[-1] + '.pdf'] *)
Definition outfile (afile : str) : str :=
  last_piece (split "/"%char (slice_to (rfind "."%char afile) afile))
  ++ [".";"p";"d";"f"]%char.

(** The default output directory:
    ['/'.join(data_path.split('/')[:-1])] *)
Definition out_path (data_path : str) : str :=
  join "/"%char (slice_to (-1) (split "/"%char data_path)).

(** ** What the watch loop has done so far *)

(** The record of the loop is sound with respect to the files [seen] in
    the directory: every file recorded as processed was listed and its job
    returned; and a loop ended by [e] was ended by the job of a listed
    file. *)
Definition watcher_sound (job : string → config → result report)
    (cfg : config) (seen : gset string) (w : watcher) : Prop :=
  match w with
  | Running processed_files =>
      ∀ f, f ∈ processed_files → f ∈ seen ∧ ∃ r, job f cfg = Ok r
  | Terminated e processed_files =>
      (∀ f, f ∈ processed_files → f ∈ seen ∧ ∃ r, job f cfg = Ok r)
      ∧ ∃ f, f ∈ seen ∧ job f cfg = Raise e
  end.

(** ** The arithmetic in binary64

    The normaliser, the amplitude and the charge once more, over IEEE 754
    binary64 numbers: the [float64] of NumPy and the [float] of Python,
    with the rounding of every operation.  A decimal literal denotes the
    nearest binary64 number, as it does in Python.  The order in which
    [np.mean] adds the samples of a window is NumPy's business and the
    quadrature is SciPy's: both are parameters. *)

Module Binary64.

(** [float(n)] for a count or an index. *)
Definition of_nat (n : nat) : float :=
  PrimFloat.of_uint63 (Uint63.of_Z (Z.of_nat n)).

(** [a / b] on Python floats: a zero divisor, of either sign, raises. *)
Definition py_div (a b : float) : result float :=
  if PrimFloat.eqb b 0 then Raise ZeroDivisionError
  else Ok (PrimFloat.div a b).

(** [np.maximum]: the first argument when it is NaN or not below the
    second one, otherwise the second; [np.max] folds it over the row. *)
Definition maximum (a b : float) : float :=
  if PrimFloat.leb b a || PrimFloat.is_nan a then a else b.

Definition row_max (r : list float) : float :=
  match r with
  | [] => PrimFloat.nan
  | x :: r' => foldl maximum x r'
  end.

Definition np_max_axis (a : array2 float) : result (list float) :=
  if decide (shape1 a = 0) then Raise ValueError
  else Ok (row_max <$> rows a).

(** [np.arange(n) * dt] *)
Definition arange_times (n : nat) (dt : float) : list float :=
  (λ i, PrimFloat.mul (of_nat i) dt) <$> seq 0 n.

Section Pipeline.

(** [np.add.reduce] over the samples of one window, and
    [integrate.simps(y, x, axis=-1)]. *)
Variable np_sum : list float → float.
Variable simps : array2 float → list float → result (list float).

(** [np.mean]: the sum divided by the count (NaN for an empty window when
    the empty sum is zero, as it is in NumPy). *)
Definition np_mean (l : list float) : float :=
  PrimFloat.div (np_sum l) (of_nat (length l)).

Definition pedestal (pedestal_length : Z) (row : list float) : float :=
  np_mean (slice_to pedestal_length row).

Definition calculate_voltages_raw (v_in : array2 float) (pedestal_length : Z)
  : array2 float :=
  Array2 (shape1 v_in)
    ((λ row : list float,
        (λ x, PrimFloat.sub x (pedestal pedestal_length row)) <$> row)
       <$> rows v_in).

Definition calculate_voltages (v_in : array2 float) (gain_post : float)
    (pedestal_length : Z) : result (array2 float) :=
  gain_post_inv ← py_div 1 gain_post;
  Ok (amap (PrimFloat.mul gain_post_inv)
        (calculate_voltages_raw v_in pedestal_length)).

Definition amplitude (v_in : array2 float) (gain_post : float)
    (pedestal_length : Z) : result (list float) :=
  v_preamp_pedsub ← calculate_voltages v_in gain_post pedestal_length;
  np_max_axis v_preamp_pedsub.

Definition calculate_charge (v_in : array2 float)
    (dt transCond gain_post : float) (pedestal_length : Z)
    (charge_norm : float) : result (list float) :=
  v_preamp_pedsub ← calculate_voltages v_in gain_post pedestal_length;
  let time := arange_times (shape1 v_in) dt in
  norm ← py_div charge_norm transCond;
  simps (amap (PrimFloat.mul norm) v_preamp_pedsub) time.

End Pipeline.

(** *** Reference instances of the library routines

    Used to run the binary64 pipeline on concrete events only.  NumPy adds
    fewer than eight samples from left to right, starting from zero; the
    windows of the runs below have one or two samples.  On three samples
    [x0, x1, x2] SciPy's Simpson rule is one panel, evaluated as
    [(h0+h1)/6 * (y0*(2 - 1/(h0/h1)) + y1*(h0+h1)*(h0+h1)/(h0*h1)
    + y2*(2 - h0/h1))] with [h0 = x1 - x0] and [h1 = x2 - x1]; this
    instance declines any other number of samples with [ValueError]. *)
Definition sum_left (l : list float) : float := foldl PrimFloat.add 0%float l.

Definition simpson_panel (x0 x1 x2 y0 y1 y2 : float) : float :=
  let h0 := PrimFloat.sub x1 x0 in
  let h1 := PrimFloat.sub x2 x1 in
  let hsum := PrimFloat.add h0 h1 in
  let hprod := PrimFloat.mul h0 h1 in
  let h0divh1 := PrimFloat.div h0 h1 in
  PrimFloat.mul (PrimFloat.div hsum 6)
    (PrimFloat.add
       (PrimFloat.add
          (PrimFloat.mul y0 (PrimFloat.sub 2 (PrimFloat.div 1 h0divh1)))
          (PrimFloat.div (PrimFloat.mul (PrimFloat.mul y1 hsum) hsum) hprod))
       (PrimFloat.mul y2 (PrimFloat.sub 2 h0divh1))).

Definition simps_one_panel (y : array2 float) (x : list float)
  : result (list float) :=
  match x with
  | [x0; x1; x2] =>
      if decide (shape1 y = 3) then
        Ok ((λ r : list float,
               match r with
               | [y0; y1; y2] => simpson_panel x0 x1 x2 y0 y1 y2
               | _ => PrimFloat.nan
               end) <$> rows y)
      else Raise ValueError
  | _ => Raise ValueError
  end.

End Binary64.

(** ** The statements about values as they are worded

    Each of them is read on the binary64 pipeline, for a summation routine
    and a quadrature routine. *)

(** The claim of C4: for a nonzero gain the normaliser returns the quotient
    of [raw - pedestal_mean] by the gain, element by element. *)
Definition normalised_by_quotient (np_sum : list float → float) : Prop :=
  ∀ (v_in : array2 float) (gain_post : float) (pedestal_length : Z),
    PrimFloat.eqb gain_post 0 = false →
    (0 ≤ pedestal_length)%Z →
    Binary64.calculate_voltages np_sum v_in gain_post pedestal_length =
      Ok (Array2 (shape1 v_in)
            ((λ event : list float,
               let pedestal_mean :=
                 Binary64.np_mean np_sum
                   (take (Z.to_nat pedestal_length) event) in
               (λ raw, PrimFloat.div (PrimFloat.sub raw pedestal_mean)
                         gain_post) <$> event)
             <$> rows v_in)).

(** The claim of C7: the charge of the input scaled by [k] is [k] times the
    charge of the input, event by event. *)
Definition charge_scales_exactly (np_sum : list float → float)
    (simps : array2 float → list float → result (list float)) : Prop :=
  ∀ (k : float) (v_in : array2 float) (dt transCond gain_post : float)
    (pedestal_length : Z) (charge_norm : float),
    Binary64.calculate_charge np_sum simps (amap (PrimFloat.mul k) v_in) dt
        transCond gain_post pedestal_length charge_norm =
      (λ charges : list float, PrimFloat.mul k <$> charges) <$>
        Binary64.calculate_charge np_sum simps v_in dt transCond gain_post
          pedestal_length charge_norm.

(** The claim of C8: adding [c] to every raw sample leaves the amplitude of
    every event unchanged. *)
Definition offset_leaves_amplitude (np_sum : list float → float) : Prop :=
  ∀ (c : float) (v_in : array2 float) (gain_post : float)
    (pedestal_length : Z),
    Binary64.amplitude np_sum (amap (λ x, PrimFloat.add x c) v_in) gain_post
        pedestal_length =
      Binary64.amplitude np_sum v_in gain_post pedestal_length.

(** * Properties *)

(** ** Arithmetic helpers *)

Local Open Scope Qc_scope.

(** Closed equations between computed values: the rationals are compared
    through their canonical representatives. *)
Ltac canon_eq :=
  first [ reflexivity
        | match goal with
          | |- @eq Qc _ _ => apply Qc_is_canon; reflexivity
          end
        | progress f_equal; canon_eq ].

Ltac by_evaluation := vm_compute; canon_eq.

Lemma of_nat_S (n : nat) : of_nat (S n) = of_nat n + 1.
Proof.
  unfold of_nat. rewrite Nat2Z.inj_succ, <- Z.add_1_r, Z2Qc_inj_add.
  by rewrite Z2Qc_inj_1.
Qed.

Lemma of_nat_0 : of_nat 0 = 0.
Proof. exact Z2Qc_inj_0. Qed.

Lemma of_nat_nonneg (n : nat) : 0 ≤ of_nat n.
Proof.
  unfold of_nat. rewrite <- Z2Qc_inj_0. apply (proj1 (Z2Qc_inj_le 0 (Z.of_nat n))). lia.
Qed.

Lemma of_nat_S_neq_0 (n : nat) : of_nat (S n) ≠ 0.
Proof.
  rewrite of_nat_S. intros H.
  assert (0 < of_nat n + 1) as Hpos
    by (apply Qcplus_nonneg_pos; [apply of_nat_nonneg | done]).
  rewrite H in Hpos. by apply (irreflexivity Qclt 0).
Qed.

Lemma qsum_nil : qsum [] = 0.
Proof. reflexivity. Qed.

Lemma qsum_cons (x : Qc) (l : list Qc) : qsum (x :: l) = x + qsum l.
Proof. reflexivity. Qed.

Lemma qsum_shift (c : Qc) (l : list Qc) :
  qsum ((λ x, x + c) <$> l) = qsum l + of_nat (length l) * c.
Proof.
  induction l as [|x l IH].
  - cbn [length]. rewrite of_nat_0, fmap_nil, qsum_nil. ring.
  - cbn [length]. rewrite of_nat_S, fmap_cons, !qsum_cons, IH. ring.
Qed.

Lemma qsum_scale (k : Qc) (l : list Qc) :
  qsum (Qcmult k <$> l) = k * qsum l.
Proof.
  induction l as [|x l IH].
  - rewrite fmap_nil, qsum_nil. ring.
  - rewrite fmap_cons, !qsum_cons, IH. ring.
Qed.

Lemma slice_to_fmap {A B} (f : A → B) (k : Z) (l : list A) :
  slice_to k (f <$> l) = f <$> slice_to k l.
Proof.
  unfold slice_to. rewrite length_fmap.
  case_decide; by rewrite fmap_take.
Qed.

Lemma slice_to_all {A} (k : Z) (l : list A) :
  (Z.of_nat (length l) ≤ k)%Z → slice_to k l = l.
Proof.
  intros H. unfold slice_to. rewrite decide_True by lia.
  apply take_ge. lia.
Qed.

Lemma np_mean_nonempty (l : list Qc) :
  l ≠ [] → np_mean l = Some (qsum l / of_nat (length l)).
Proof. by destruct l. Qed.

Lemma np_mean_shift (c : Qc) (l : list Qc) :
  np_mean ((λ x, x + c) <$> l) = add (np_mean l) (Some c).
Proof.
  destruct (decide (l = [])) as [->|Hne]; [done|].
  rewrite !np_mean_nonempty, qsum_shift, length_fmap
    by (by destruct l).
  cbn [add lift2]. f_equal. field.
  destruct l; [done | apply of_nat_S_neq_0].
Qed.

Lemma np_mean_scale (k : Qc) (l : list Qc) :
  np_mean (Qcmult k <$> l) = scale k (np_mean l).
Proof.
  destruct (decide (l = [])) as [->|Hne]; [done|].
  rewrite !np_mean_nonempty, qsum_scale, length_fmap
    by (by destruct l).
  cbn [scale mul lift2]. f_equal. field.
  destruct l; [done | apply of_nat_S_neq_0].
Qed.

Lemma pedestal_shift (c : Qc) (p : Z) (row : list Qc) :
  pedestal p ((λ x, x + c) <$> row) = add (pedestal p row) (Some c).
Proof. unfold pedestal. by rewrite slice_to_fmap, np_mean_shift. Qed.

Lemma pedestal_scale (k : Qc) (p : Z) (row : list Qc) :
  pedestal p (Qcmult k <$> row) = scale k (pedestal p row).
Proof. unfold pedestal. by rewrite slice_to_fmap, np_mean_scale. Qed.

Lemma sub_shift (x c : Qc) (m : num) :
  sub (Some (x + c)) (add m (Some c)) = sub (Some x) m.
Proof. destruct m as [m|]; simpl; [f_equal; ring | done]. Qed.

(** ** The voltage normaliser *)

Lemma scale_inv_divc (g : Qc) (x : num) :
  g ≠ 0 → scale (1 / g) x = divc x g.
Proof.
  intros Hg. destruct x as [a|]; [|done].
  cbn [scale mul lift2 divc]. f_equal. by field.
Qed.

(** Read over the rationals, multiplying by the reciprocal of the gain is
    dividing by the gain: whatever separates the two in the script is
    rounding. *)
Lemma calculate_voltages_exact_quotient (v_in : array2 Qc) (gain_post : Qc)
    (pedestal_length : Z) :
  gain_post ≠ 0 →
  (0 ≤ pedestal_length)%Z →
  calculate_voltages v_in gain_post pedestal_length =
    Ok (Array2 (shape1 v_in)
          ((λ event : list Qc,
             let pedestal_mean :=
               np_mean (take (Z.to_nat pedestal_length) event) in
             (λ raw, divc (sub (Some raw) pedestal_mean) gain_post) <$> event)
           <$> rows v_in)).
Proof.
  intros Hg Hp. unfold calculate_voltages.
  rewrite decide_False by done. f_equal.
  unfold amap, calculate_voltages_raw; cbn [shape1 rows]. f_equal.
  rewrite <- list_fmap_compose. apply list_fmap_ext; intros _ event _.
  cbn [compose]. rewrite <- list_fmap_compose.
  apply list_fmap_ext; intros _ raw _. cbn [compose].
  rewrite scale_inv_divc by done.
  unfold pedestal, slice_to. by rewrite decide_True by done.
Qed.

(** Two binary64 numbers that the comparison [==] tells apart are
    different. *)
Ltac floats_differ H :=
  match type of H with
  | ?a = ?b =>
      let E := fresh in
      assert (PrimFloat.eqb a b = PrimFloat.eqb b b) as E by (by rewrite H);
      vm_compute in E; discriminate E
  end.

(** C4, counterexample.  One event with the samples 1 and 4, a window of
    one sample and the default gain -10: the pedestal is 1, the second
    sample is 3 above it, and the script returns
    [(1/-10) * 3 = -0.30000000000000004] where the quotient [3 / -10] is
    [-0.3] (the binary64 number nearest to it). *)
Lemma normalised_by_quotient_counterexample :
  Binary64.calculate_voltages Binary64.sum_left
      (Array2 2 [[1; 4]]%float) (-10)%float 1 =
    Ok (Array2 2 [[-0; -0.30000000000000004]]%float)
  ∧ PrimFloat.div (PrimFloat.sub 4 1) (-10) = (-0.3)%float
  ∧ PrimFloat.ltb (-0.30000000000000004) (-0.3) = true
  ∧ ¬ normalised_by_quotient Binary64.sum_left.
Proof.
  split_and!; [by vm_compute | by vm_compute | by vm_compute |].
  intros Hclaim.
  specialize (Hclaim (Array2 2 [[1; 4]]%float) (-10)%float 1%Z
                ltac:(by vm_compute) ltac:(lia)).
  apply (f_equal (λ r, match r with
                       | Ok a => default PrimFloat.nan (mjoin (rows a) !! 1%nat)
                       | Raise _ => PrimFloat.nan
                       end)) in Hclaim.
  vm_compute in Hclaim. floats_differ Hclaim.
Qed.

(** C4, as the code has it.  For a nonzero gain and a window length
    [p ≥ 0] the normaliser returns, element by element, the binary64
    product of the reciprocal [1.0/gain_post] and the difference
    [raw - pedestal_mean], where [pedestal_mean] is the mean ([np.mean]:
    sum over count) of the first [p] samples of the event the element
    belongs to; the shape of the input is kept. *)
Theorem calculate_voltages_multiplies_by_reciprocal
    (np_sum : list float → float) (v_in : array2 float) (gain_post : float)
    (pedestal_length : Z) :
  PrimFloat.eqb gain_post 0 = false →
  (0 ≤ pedestal_length)%Z →
  Binary64.calculate_voltages np_sum v_in gain_post pedestal_length =
    Ok (Array2 (shape1 v_in)
          ((λ event : list float,
             let window := take (Z.to_nat pedestal_length) event in
             let pedestal_mean :=
               PrimFloat.div (np_sum window)
                 (Binary64.of_nat (length window)) in
             (λ raw, PrimFloat.mul (PrimFloat.div 1 gain_post)
                       (PrimFloat.sub raw pedestal_mean)) <$> event)
           <$> rows v_in)).
Proof.
  intros Hg Hp. unfold Binary64.calculate_voltages, Binary64.py_div.
  rewrite Hg. cbn [mbind result_bind]. f_equal.
  unfold amap, Binary64.calculate_voltages_raw; cbn [shape1 rows]. f_equal.
  rewrite <- list_fmap_compose. apply list_fmap_ext; intros _ event _.
  cbn [compose]. rewrite <- list_fmap_compose.
  apply list_fmap_ext; intros _ raw _. cbn [compose].
  unfold Binary64.pedestal, Binary64.np_mean, slice_to.
  by rewrite decide_True by done.
Qed.

Lemma calculate_voltages_multiplies_by_reciprocal_witness :
  Binary64.calculate_voltages Binary64.sum_left
      (Array2 3 [[1; 3; 8]]%float) (-10)%float 2 =
    Ok (Array2 3 [[0.10000000000000001; -0.10000000000000001;
                   -0.60000000000000009]]%float).
Proof.
  rewrite (calculate_voltages_multiplies_by_reciprocal Binary64.sum_left
             (Array2 3 [[1; 3; 8]]%float) (-10)%float 2);
    [by vm_compute | by vm_compute | lia].
Defined.

(** C10.  A zero post-gain is outside the domain of every operation that
    normalises: [1.0/gain_post] raises [ZeroDivisionError] and no voltage,
    amplitude, charge or crossing time is produced; and a zero gain is the
    only way the normaliser can fail. *)
Theorem gain_post_nonzero_precondition (v_in : array2 Qc) (pedestal_length : Z) :
  calculate_voltages v_in 0 pedestal_length = Raise ZeroDivisionError
  ∧ amplitude v_in 0 pedestal_length = Raise ZeroDivisionError
  ∧ (∀ simps_weights dt transCond charge_norm,
       calculate_charge simps_weights v_in dt transCond 0 pedestal_length
         charge_norm = Raise ZeroDivisionError)
  ∧ (∀ spline newton percent_thresh dt,
       calculate_tcross spline newton v_in percent_thresh dt 0 pedestal_length
         = ([], Raise ZeroDivisionError))
  ∧ (∀ gain_post,
       raises (calculate_voltages v_in gain_post pedestal_length)
       ↔ gain_post = 0).
Proof.
  assert (calculate_voltages v_in 0 pedestal_length = Raise ZeroDivisionError)
    as Hv by (unfold calculate_voltages; by rewrite decide_True).
  split_and!.
  - done.
  - unfold amplitude. by rewrite Hv.
  - intros. unfold calculate_charge. by rewrite Hv.
  - intros. unfold calculate_tcross. by rewrite Hv.
  - intros gain_post. split.
    + unfold calculate_voltages. intros Hr.
      destruct (decide (gain_post = 0)) as [|Hne]; [done | by simpl in Hr].
    + intros ->. by rewrite Hv.
Qed.

Lemma gain_post_nonzero_precondition_witness :
  raises (calculate_voltages (Array2 2 [[qc 1 1; qc 2 1]]) 0 1)
  ∧ ¬ raises (calculate_voltages (Array2 2 [[qc 1 1; qc 2 1]]) (qc (-1) 1) 1).
Proof.
  pose proof (gain_post_nonzero_precondition (Array2 2 [[qc 1 1; qc 2 1]]) 1)
    as (_ & _ & _ & _ & H).
  split.
  - by apply H.
  - intros Hr. by apply H in Hr.
Defined.

Lemma pedestal_truncated (pedestal_length : Z) (row : list Qc) :
  (Z.of_nat (length row) ≤ pedestal_length)%Z →
  pedestal pedestal_length row = np_mean row.
Proof. intros H. unfold pedestal. by rewrite slice_to_all. Qed.

(** C5, counterexample.  Three samples and a window of five: nothing is
    raised, the mean of the three samples is subtracted. *)
Lemma window_checked_counterexample :
  calculate_voltages (Array2 3 [[qc 1 1; qc 2 1; qc 6 1]]) 1 5 =
    Ok (Array2 3 [[fin (-2) 1; fin (-1) 1; fin 3 1]])
  ∧ ¬ window_checked.
Proof.
  assert (calculate_voltages (Array2 3 [[qc 1 1; qc 2 1; qc 6 1]]) 1 5 =
            Ok (Array2 3 [[fin (-2) 1; fin (-1) 1; fin 3 1]])) as Heq.
  { unfold calculate_voltages. rewrite decide_False by done.
    unfold amap, calculate_voltages_raw, fin.
    cbn [rows shape1 fmap list_fmap].
    rewrite pedestal_truncated by (cbn [length]; lia).
    repeat f_equal; apply Qc_is_canon; reflexivity. }
  split; [done|].
  intros H.
  specialize (H (Array2 3 [[qc 1 1; qc 2 1; qc 6 1]]) 1 5%Z).
  rewrite Heq in H. apply H.
  - by repeat constructor.
  - cbn [shape1]. lia.
Qed.

(** C5, as the code has it.  There is no check on the window: when it is
    at least as long as the sample axis, [v_in[:, :pedestal_length]] is the
    whole event, and the normaliser subtracts the mean of all the samples
    of the event, exactly as it does for a window of the full length. *)
Theorem window_truncated (v_in : array2 Qc) (pedestal_length : Z) :
  wf v_in →
  (Z.of_nat (shape1 v_in) ≤ pedestal_length)%Z →
  calculate_voltages_raw v_in pedestal_length =
    Array2 (shape1 v_in)
      ((λ event : list Qc, (λ raw, sub (Some raw) (np_mean event)) <$> event)
       <$> rows v_in)
  ∧ calculate_voltages_raw v_in pedestal_length =
      calculate_voltages_raw v_in (Z.of_nat (shape1 v_in)).
Proof.
  intros Hwf Hp.
  assert (∀ p, (Z.of_nat (shape1 v_in) ≤ p)%Z →
    calculate_voltages_raw v_in p =
      Array2 (shape1 v_in)
        ((λ event : list Qc, (λ raw, sub (Some raw) (np_mean event)) <$> event)
         <$> rows v_in)) as Hall.
  { intros p Hle. unfold calculate_voltages_raw. f_equal.
    apply Forall_fmap_ext. eapply Forall_impl; [exact Hwf|].
    intros event Hlen. cbn beta in *.
    rewrite pedestal_truncated by lia. done. }
  split; [by apply Hall|].
  rewrite (Hall pedestal_length) by done.
  by rewrite (Hall (Z.of_nat (shape1 v_in))).
Qed.

Lemma window_truncated_witness :
  calculate_voltages_raw (Array2 2 [[qc 1 1; qc 3 1]]) 400 =
    calculate_voltages_raw (Array2 2 [[qc 1 1; qc 3 1]]) 2.
Proof.
  apply (window_truncated (Array2 2 [[qc 1 1; qc 3 1]]) 400).
  - by repeat constructor.
  - cbn [shape1]. lia.
Defined.

(** ** Amplitude *)

Lemma calculate_voltages_shift (c : Qc) (v_in : array2 Qc) (gain_post : Qc)
    (pedestal_length : Z) :
  calculate_voltages (amap (λ x, x + c) v_in) gain_post pedestal_length =
    calculate_voltages v_in gain_post pedestal_length.
Proof.
  unfold calculate_voltages. case_decide; [done|]. f_equal.
  unfold amap, calculate_voltages_raw; cbn [shape1 rows]. f_equal.
  rewrite <- !list_fmap_compose. apply list_fmap_ext; intros _ row _.
  cbn [compose]. rewrite pedestal_shift, <- !list_fmap_compose.
  apply list_fmap_ext; intros _ x _. cbn [compose].
  by rewrite sub_shift.
Qed.

(** C8, as the formulas have it.  Read over the rationals, adding one
    constant to every raw sample, pedestal window and signal region alike,
    leaves the per-event peak of the normalised voltage unchanged (and
    leaves an exception unchanged when there is one): the pedestal of the
    shifted event is the pedestal plus the constant, and the subtraction
    cancels it. *)
Theorem amplitude_offset_invariant (c : Qc) (v_in : array2 Qc)
    (gain_post : Qc) (pedestal_length : Z) :
  amplitude (amap (λ x, x + c) v_in) gain_post pedestal_length =
    amplitude v_in gain_post pedestal_length.
Proof. unfold amplitude. by rewrite calculate_voltages_shift. Qed.

Example amplitude_offset_example :
  amplitude (Array2 3 [[qc 5 1; qc 5 1; qc 2 1]]) (qc (-1) 1) 2 =
    Ok [fin 3 1]
  ∧ amplitude (amap (λ x, x + qc 7 2) (Array2 3 [[qc 5 1; qc 5 1; qc 2 1]]))
      (qc (-1) 1) 2 = Ok [fin 3 1].
Proof. split; by_evaluation. Qed.

(** C8, counterexample.  One event with the samples 0.1, 0.2, 0.7, a
    window of two samples, gain -1 and the offset 0.3: in binary64 the
    subtraction of the pedestal does not cancel the offset to the last
    digit, and the amplitude moves from 0.050000000000000017 to
    0.049999999999999989. *)
Lemma offset_leaves_amplitude_counterexample :
  Binary64.amplitude Binary64.sum_left
      (Array2 3 [[0.1; 0.2; 0.7]]%float) (-1)%float 2 =
    Ok [0.050000000000000017]%float
  ∧ Binary64.amplitude Binary64.sum_left
        (amap (λ x, PrimFloat.add x 0.3) (Array2 3 [[0.1; 0.2; 0.7]]%float))
        (-1)%float 2 =
      Ok [0.049999999999999989]%float
  ∧ ¬ offset_leaves_amplitude Binary64.sum_left.
Proof.
  split_and!; [by vm_compute | by vm_compute |].
  intros Hclaim.
  specialize (Hclaim 0.3%float (Array2 3 [[0.1; 0.2; 0.7]]%float)
                (-1)%float 2%Z).
  apply (f_equal (λ r, match r with
                       | Ok pk => default PrimFloat.nan (pk !! 0%nat)
                       | Raise _ => PrimFloat.nan
                       end)) in Hclaim.
  vm_compute in Hclaim. floats_differ Hclaim.
Qed.

(** ** Charge *)

Lemma scale_scale_comm (a b : Qc) (x : num) :
  scale a (scale b x) = scale b (scale a x).
Proof. destruct x as [x|]; [|done]. cbn. f_equal. ring. Qed.

Lemma scale_sub (k x : Qc) (m : num) :
  sub (Some (k * x)) (scale k m) = scale k (sub (Some x) m).
Proof. destruct m as [m|]; [|done]. cbn. f_equal. ring. Qed.

Lemma wsum_nil_l (ys : list num) : wsum [] ys = Some 0.
Proof. reflexivity. Qed.

Lemma wsum_cons (w y : num) (ws ys : list num) :
  wsum (w :: ws) (y :: ys) = add (mul w y) (wsum ws ys).
Proof. reflexivity. Qed.

Lemma wsum_scale (k : Qc) (ws ys : list num) :
  wsum ws (scale k <$> ys) = scale k (wsum ws ys).
Proof.
  revert ys. induction ws as [|w ws IH]; intros ys.
  - rewrite !wsum_nil_l. cbn. f_equal. ring.
  - destruct ys as [|y ys].
    + cbn. f_equal. ring.
    + rewrite fmap_cons, !wsum_cons, IH.
      destruct w as [w|], y as [y|], (wsum ws ys) as [s|]; cbn; try done.
      f_equal. ring.
Qed.

Lemma calculate_voltages_scale (k : Qc) (v_in : array2 Qc) (gain_post : Qc)
    (pedestal_length : Z) :
  calculate_voltages (amap (Qcmult k) v_in) gain_post pedestal_length =
    amap (scale k) <$> calculate_voltages v_in gain_post pedestal_length.
Proof.
  unfold calculate_voltages. case_decide; [done|]. cbn [fmap result_fmap].
  f_equal. unfold amap, calculate_voltages_raw; cbn [shape1 rows]. f_equal.
  rewrite <- !list_fmap_compose. apply list_fmap_ext; intros _ row _.
  cbn [compose]. rewrite pedestal_scale, <- !list_fmap_compose.
  apply list_fmap_ext; intros _ x _. cbn [compose].
  by rewrite scale_sub, scale_scale_comm.
Qed.

(** C7, as the formulas have it.  Read over the rationals, the charge
    extractor is linear in the voltage it is given: for every array, sample
    interval, transconductance, gain, window, norm and constant [k], and
    for every quadrature that is a weighted sum of the samples, the charge
    of the array scaled by [k] is, event by event, [k] times the charge of
    the array (an exception is the same on both sides). *)
Theorem calculate_charge_linear (simps_weights : list Qc → result (list num))
    (k : Qc) (v_in : array2 Qc) (dt transCond gain_post : Qc)
    (pedestal_length : Z) (charge_norm : Qc) :
  calculate_charge simps_weights (amap (Qcmult k) v_in) dt transCond gain_post
      pedestal_length charge_norm =
    (λ charges : list num, scale k <$> charges) <$>
      calculate_charge simps_weights v_in dt transCond gain_post
        pedestal_length charge_norm.
Proof.
  unfold calculate_charge. rewrite calculate_voltages_scale.
  destruct (calculate_voltages v_in gain_post pedestal_length) as [v|e];
    [|done].
  cbn [fmap result_fmap mbind result_bind amap shape1].
  case_decide; [done|].
  unfold simps. destruct (simps_weights _) as [ws|e]; [|done].
  cbn [fmap result_fmap mbind result_bind amap rows]. f_equal.
  rewrite <- !list_fmap_compose. apply list_fmap_ext; intros _ row _.
  cbn [compose]. rewrite <- wsum_scale. f_equal.
  rewrite <- !list_fmap_compose. apply list_fmap_ext; intros _ x _.
  cbn [compose]. apply scale_scale_comm.
Qed.

Example calculate_charge_example :
  calculate_charge Scipy.simps_weights
    (Array2 3 [[qc 0 1; qc (-3) 1; qc 0 1]]) (qc 1 2) (qc 4400 1) (qc (-1) 1)
    1 (qc 4400 1) = Ok [fin 2 1].
Proof. by_evaluation. Qed.

(** C7, counterexample.  One event with the samples 0.1, 0.2, 0.7 at
    times 0, 1, 2, a window of one sample, the default gain -10, the low
    transconductance 4400 and the default norm 1e15: the charge is
    -7575757575.757576, three times that is -22727272727.272728, and the
    charge of the event scaled by 3 is -22727272727.272724. *)
Lemma charge_scales_exactly_counterexample :
  Binary64.calculate_charge Binary64.sum_left Binary64.simps_one_panel
      (Array2 3 [[0.1; 0.2; 0.7]]%float) 1 4400 (-10) 1 1e15 =
    Ok [-7575757575.757576]%float
  ∧ PrimFloat.mul 3 (-7575757575.757576) = (-22727272727.272728)%float
  ∧ Binary64.calculate_charge Binary64.sum_left Binary64.simps_one_panel
        (amap (PrimFloat.mul 3) (Array2 3 [[0.1; 0.2; 0.7]]%float))
        1 4400 (-10) 1 1e15 =
      Ok [-22727272727.272724]%float
  ∧ ¬ charge_scales_exactly Binary64.sum_left Binary64.simps_one_panel.
Proof.
  split_and!; [by vm_compute | by vm_compute | by vm_compute |].
  intros Hclaim.
  specialize (Hclaim 3%float (Array2 3 [[0.1; 0.2; 0.7]]%float)
                1%float 4400%float (-10)%float 1%Z 1e15%float).
  apply (f_equal (λ r, match r with
                       | Ok charges => default PrimFloat.nan (charges !! 0%nat)
                       | Raise _ => PrimFloat.nan
                       end)) in Hclaim.
  vm_compute in Hclaim. floats_differ Hclaim.
Qed.

(** ** Event selection *)

Lemma gate_amplitude (d : list (array2 Qc)) (cfg : config) (ch : nat)
    (v_in : array2 Qc) (g : Qc) (pk : list num) :
  d !! ch = Some v_in → gains cfg !! ch = Some g →
  amplitude v_in g default_pedestal_length = Ok pk →
  gate d cfg ch = Ok (above gate_level pk).
Proof.
  intros Hd Hg Hpk. unfold gate, index. rewrite Hd, Hg.
  cbn [mbind result_bind]. by rewrite Hpk.
Qed.

(** C6.  Whenever the three gated channels (0, 1 and 2) have amplitudes,
    the coincidence mask is, event by event, the conjunction of the three
    tests [amplitude > 0.015]; and amplitudes 0.02, 0.02 and 0.001 give
    [False]. *)
Theorem coincidence_mask_is_and (d : list (array2 Qc)) (cfg : config)
    (v1 v2 v3 : array2 Qc) (g1 g2 g3 : Qc) (pk1 pk2 pk3 : list num) :
  d !! 0%nat = Some v1 → d !! 1%nat = Some v2 → d !! 2%nat = Some v3 →
  gains cfg !! 0%nat = Some g1 → gains cfg !! 1%nat = Some g2 →
  gains cfg !! 2%nat = Some g3 →
  amplitude v1 g1 default_pedestal_length = Ok pk1 →
  amplitude v2 g2 default_pedestal_length = Ok pk2 →
  amplitude v3 g3 default_pedestal_length = Ok pk3 →
  ∃ mask,
    coincidence_mask d cfg = Ok mask
    ∧ (∀ evt,
         mask !! evt =
           (a1 ← pk1 !! evt; a2 ← pk2 !! evt; a3 ← pk3 !! evt;
            Some (gtb a1 gate_level && gtb a2 gate_level && gtb a3 gate_level)))
    ∧ and3 (above gate_level [fin 2 100]) (above gate_level [fin 2 100])
           (above gate_level [fin 1 1000]) = [false].
Proof.
  intros Hd1 Hd2 Hd3 Hg1 Hg2 Hg3 Hpk1 Hpk2 Hpk3.
  exists (and3 (above gate_level pk1) (above gate_level pk2)
               (above gate_level pk3)).
  split_and!.
  - unfold coincidence_mask.
    rewrite (gate_amplitude _ _ _ _ _ _ Hd1 Hg1 Hpk1),
            (gate_amplitude _ _ _ _ _ _ Hd2 Hg2 Hpk2),
            (gate_amplitude _ _ _ _ _ _ Hd3 Hg3 Hpk3).
    done.
  - intros evt. unfold and3, above.
    rewrite !lookup_zip_with, !list_lookup_fmap.
    by destruct (pk1 !! evt), (pk2 !! evt), (pk3 !! evt).
  - by vm_compute.
Qed.

Lemma coincidence_mask_is_and_witness :
  amplitude (Array2 2 [[qc 4 100; qc 0 1]]) (qc (-1) 1)
    default_pedestal_length = Ok [fin 2 100]
  ∧ amplitude (Array2 2 [[qc 2 1000; qc 0 1]]) (qc (-1) 1)
      default_pedestal_length = Ok [fin 1 1000]
  ∧ coincidence_mask scenario_data scope_config = Ok [false].
Proof.
  assert (amplitude (Array2 2 [[qc 4 100; qc 0 1]]) (qc (-1) 1)
            default_pedestal_length = Ok [fin 2 100]) as Ha
    by by_evaluation.
  assert (amplitude (Array2 2 [[qc 2 1000; qc 0 1]]) (qc (-1) 1)
            default_pedestal_length = Ok [fin 1 1000]) as Hb
    by by_evaluation.
  split_and!; [done | done |].
  destruct (coincidence_mask_is_and scenario_data scope_config
              _ _ _ _ _ _ _ _ _
              eq_refl eq_refl eq_refl eq_refl eq_refl eq_refl Ha Ha Hb)
    as (mask & -> & Hevt & _).
  f_equal. apply list_eq. intros evt. rewrite Hevt.
  by destruct evt as [|[|evt]]; vm_compute.
Defined.

(** ** The loop of [calculate_tcross] *)

Local Close Scope Qc_scope.

Lemma tcross_step_ok (body : nat → traced num) (tr : list call)
    (t0s : list num) (evt : nat) :
  tcross_step body (tr, Ok t0s) evt =
    (tr ++ calls (body evt),
     match outcome (body evt) with
     | Ok t0 => Ok (<[evt := t0]> t0s)
     | Raise e => Raise e
     end).
Proof.
  unfold tcross_step, mbind, traced_bind, calls, outcome.
  destruct (body evt) as [tr' [t0|e]]; cbn; by rewrite ?app_nil_r.
Qed.

Lemma tcross_step_raise (body : nat → traced num) (tr : list call) (e : exn)
    (evt : nat) :
  tcross_step body (tr, Raise e) evt = (tr, Raise e).
Proof. reflexivity. Qed.

Lemma foldl_step_raise (body : nat → traced num) (tr : list call) (e : exn)
    (evts : list nat) :
  foldl (tcross_step body) (tr, Raise e) evts = (tr, Raise e).
Proof. induction evts as [|evt evts IH]; [done|]. cbn. by rewrite IH. Qed.

Lemma loop_from_S (body : nat → traced num) (init : list num) (n : nat) :
  loop_from body init (S n) = tcross_step body (loop_from body init n) n.
Proof. unfold loop_from. by rewrite seq_S, foldl_app. Qed.

(** A loop that returns has run every event, and its result holds the value
    of each of them. *)
Lemma loop_from_ok (body : nat → traced num) (init : list num) (n : nat)
    (t0s : list num) :
  n ≤ length init →
  outcome (loop_from body init n) = Ok t0s →
  length t0s = length init
  ∧ (∀ evt, evt < n → ∃ t0, outcome (body evt) = Ok t0 ∧ t0s !! evt = Some t0)
  ∧ (∀ i, n ≤ i → t0s !! i = init !! i).
Proof.
  revert t0s. induction n as [|n IH]; intros t0s Hn Hok.
  - cbn in Hok. injection Hok as <-. split_and!; [done | lia | done].
  - rewrite loop_from_S in Hok.
    destruct (loop_from body init n) as [tr [t0s'|e]] eqn:Hrun; [|done].
    rewrite tcross_step_ok in Hok. cbn [outcome snd] in Hok.
    destruct (outcome (body n)) as [t0|e] eqn:Hbody; [|done].
    injection Hok as <-.
    destruct (IH t0s' ltac:(lia) eq_refl) as (Hlen & Hlt & Hge).
    split_and!.
    + by rewrite length_insert.
    + intros evt Hevt. destruct (decide (evt = n)) as [->|Hne].
      * exists t0. split; [done|]. apply list_lookup_insert_eq. lia.
      * destruct (Hlt evt ltac:(lia)) as (t & Ht & Hl).
        exists t. split; [done|]. by rewrite list_lookup_insert_ne.
    + intros i Hi. rewrite list_lookup_insert_ne by lia. apply Hge. lia.
Qed.

(** A loop whose events all return does return. *)
Lemma loop_from_returns (body : nat → traced num) (init : list num) (n : nat) :
  (∀ evt, evt < n → ∃ t0, outcome (body evt) = Ok t0) →
  ∃ t0s, outcome (loop_from body init n) = Ok t0s.
Proof.
  induction n as [|n IH]; intros Hall.
  - by exists init.
  - destruct IH as [t0s' Hrun]; [intros evt ?; apply Hall; lia|].
    destruct (Hall n ltac:(lia)) as [t0 Ht0].
    rewrite loop_from_S.
    destruct (loop_from body init n) as [tr r]. cbn in Hrun. subst r.
    rewrite tcross_step_ok. cbn [outcome snd]. rewrite Ht0. eauto.
Qed.

(** The first event that raises ends the loop with its exception. *)
Lemma loop_from_raise (body : nat → traced num) (init : list num) (n : nat)
    (evt : nat) (e : exn) :
  evt < n →
  (∀ evt', evt' < evt → ∃ t0, outcome (body evt') = Ok t0) →
  outcome (body evt) = Raise e →
  outcome (loop_from body init n) = Raise e.
Proof.
  intros Hevt Hbefore Hraise.
  destruct (loop_from_returns body init evt Hbefore) as [t0s' Hrun].
  unfold loop_from in *.
  replace n with (evt + (1 + (n - S evt)))%nat by lia.
  rewrite !seq_app, !foldl_app.
  destruct (foldl (tcross_step body) (mret init) (seq 0 evt)) as [tr r].
  cbn in Hrun. subst r. cbn [seq foldl]. rewrite Nat.add_0_l.
  rewrite tcross_step_ok, Hraise. by rewrite foldl_step_raise.
Qed.

(** A loop that raises got its exception from the body of an event. *)
Lemma loop_from_raises (body : nat → traced num) (init : list num) (n : nat)
    (e : exn) :
  outcome (loop_from body init n) = Raise e →
  ∃ evt, evt < n ∧ outcome (body evt) = Raise e.
Proof.
  induction n as [|n IH]; intros Hraise; [done|].
  rewrite loop_from_S in Hraise.
  destruct (loop_from body init n) as [tr [t0s'|e']] eqn:Hrun.
  - rewrite tcross_step_ok in Hraise. cbn [outcome snd] in Hraise.
    destruct (outcome (body n)) as [t0|e'] eqn:Hbody; [done|].
    injection Hraise as ->. exists n. split; [lia|done].
  - rewrite tcross_step_raise in Hraise. cbn [outcome snd] in *.
    destruct (IH Hraise) as (evt & ? & ?). exists evt. split; [lia|done].
Qed.

(** Every logged call was made by the body of an event of the loop. *)
Lemma loop_from_calls (body : nat → traced num) (init : list num) (n : nat)
    (c : call) :
  c ∈ calls (loop_from body init n) →
  ∃ evt, evt < n ∧ c ∈ calls (body evt).
Proof.
  induction n as [|n IH]; intros Hc.
  - cbn in Hc. by apply elem_of_nil in Hc.
  - rewrite loop_from_S in Hc.
    destruct (loop_from body init n) as [tr [t0s'|e]] eqn:Hrun.
    + rewrite tcross_step_ok in Hc. cbn [calls fst] in Hc.
      apply elem_of_app in Hc as [Hc|Hc].
      * destruct (IH Hc) as (evt & ? & ?). exists evt. split; [lia|done].
      * exists n. split; [lia|done].
    + rewrite tcross_step_raise in Hc.
      destruct (IH Hc) as (evt & ? & ?). exists evt. split; [lia|done].
Qed.

(** ** The body of the loop *)

Lemma pure_ok_bind {A B} (a : A) (f : A → traced B) :
  pure (Ok a) ≫= f = f a.
Proof. unfold mbind, traced_bind, pure. cbn. by destruct (f a). Qed.

Lemma pure_raise_bind {A B} (e : exn) (f : A → traced B) :
  pure (Raise e) ≫= f = ([], Raise e).
Proof. reflexivity. Qed.

Lemma calculate_voltages_shape (v_in : array2 Qc) (g : Qc) (pl : Z)
    (v : array2 num) :
  calculate_voltages v_in g pl = Ok v →
  shape1 v = shape1 v_in ∧ length (rows v) = shape0 v_in.
Proof.
  unfold calculate_voltages. case_decide; [done|]. intros [= <-].
  unfold amap, calculate_voltages_raw, shape0. cbn [shape1 rows].
  by rewrite !length_fmap.
Qed.

Lemma loop_from_ext (body body' : nat → traced num) (init : list num)
    (n : nat) :
  (∀ evt, body evt = body' evt) →
  loop_from body init n = loop_from body' init n.
Proof.
  intros Hext. induction n as [|n IH]; [done|].
  rewrite !loop_from_S, IH. unfold tcross_step. by rewrite Hext.
Qed.

Section TcrossFacts.

Variable spline_fit : list Qc → list num → result (Qc → num).
Variable newton : (Qc → num) → Qc → nat → result num.

Local Abbreviation tcross := (calculate_tcross spline_fit newton).
Local Abbreviation event := (event_run spline_fit newton).
Local Abbreviation body := (tcross_event spline_fit newton).

(** Either the preparation raises, and so does every event, or the run
    is the loop over the events. *)
Lemma calculate_tcross_cases (v_in : array2 Qc) (p dt g : Qc) (pl : Z) :
  (∃ e, tcross v_in p dt g pl = ([], Raise e)
        ∧ (∀ evt, event v_in p dt g pl evt = ([], Raise e))
        ∧ (g = Q2Qc 0 ∨ shape1 v_in = 0))
  ∨ (∃ v, calculate_voltages v_in g pl = Ok v
        ∧ shape1 v_in ≠ 0
        ∧ tcross v_in p dt g pl =
            loop_from (event v_in p dt g pl)
              (replicate (shape0 v_in) (Some (Q2Qc 0))) (shape0 v_in)
        ∧ (∀ evt, event v_in p dt g pl evt =
             body (arange_times (shape1 v_in) dt) v
               (row_argmax <$> rows v)
               ((λ m, mul m (Some p)) <$> (row_max <$> rows v)) evt)).
Proof.
  unfold calculate_tcross, event_run.
  destruct (calculate_voltages v_in g pl) as [v|e] eqn:Hv.
  - destruct (calculate_voltages_shape _ _ _ _ Hv) as [Hs1 Hs0].
    destruct (decide (shape1 v_in = 0)) as [Hz|Hnz].
    + left. exists ValueError. split_and!; [| |by right].
      * rewrite pure_ok_bind. unfold np_argmax_axis.
        rewrite Hs1, decide_True by done. apply pure_raise_bind.
      * intros evt. rewrite pure_ok_bind. unfold np_argmax_axis.
        rewrite Hs1, decide_True by done. apply pure_raise_bind.
    + right. exists v. split_and!; [done | done | |].
      * rewrite pure_ok_bind. unfold np_argmax_axis, np_max_axis.
        rewrite Hs1, !decide_False by done. rewrite !pure_ok_bind.
        apply loop_from_ext. intros evt.
        rewrite pure_ok_bind, Hs1, !decide_False by done.
        by rewrite !pure_ok_bind.
      * intros evt. rewrite pure_ok_bind.
        unfold np_argmax_axis, np_max_axis.
        rewrite Hs1, !decide_False by done. by rewrite !pure_ok_bind.
  - left. exists e. split_and!; [done | done |].
    left. unfold calculate_voltages in Hv. by case_decide.
Qed.

(** What the body logs: calls for its own event, a root search with 500
    turns at most, whose outcome is the outcome of the body. *)
Lemma body_calls (time : list Qc) (v : array2 num) (idx_max : list nat)
    (threshold : list num) (evt : nat) (c : call) :
  c ∈ calls (body time v idx_max threshold evt) →
  call_event c = evt
  ∧ (∃ idx, idx_max !! evt = Some idx ∧ 0 < idx)
  ∧ (∀ evt' x0 maxiter, c = RootSearch evt' x0 maxiter →
       maxiter = 500
       ∧ ∃ f, outcome (body time v idx_max threshold evt)
              = newton f x0 500).
Proof.
  unfold tcross_event.
  destruct (idx_max !! evt) as [idx|]; [|by intros ?%elem_of_nil].
  destruct (rows v !! evt) as [row|]; [|by intros ?%elem_of_nil].
  destruct (threshold !! evt) as [thr|]; [|by intros ?%elem_of_nil].
  case_decide; [|by intros ?%elem_of_nil].
  destruct (spline_fit time row) as [spline|e].
  - destruct (time !! _) as [start|].
    + cbn [calls fst outcome snd].
      intros [->|[->|?%elem_of_nil]%elem_of_cons]%elem_of_cons; [| |done].
      * split_and!; [done | eauto | done].
      * split_and!; [done | eauto |].
        intros evt' x0 maxiter [= -> -> ->]. eauto.
    + cbn [calls fst]. intros [->|?%elem_of_nil]%elem_of_cons; [|done].
      split_and!; [done | eauto | done].
  - cbn [calls fst]. intros [->|?%elem_of_nil]%elem_of_cons; [|done].
    split_and!; [done | eauto | done].
Qed.

Lemma body_sentinel (time : list Qc) (v : array2 num) (idx_max : list nat)
    (threshold : list num) (evt : nat) :
  idx_max !! evt = Some 0 →
  is_Some (rows v !! evt) → is_Some (threshold !! evt) →
  body time v idx_max threshold evt = ([], Ok sentinel).
Proof.
  intros Hidx [row Hrow] [thr Hthr]. unfold tcross_event.
  rewrite Hidx, Hrow, Hthr. by rewrite decide_False by lia.
Qed.

Lemma body_search (time : list Qc) (v : array2 num) (idx_max : list nat)
    (threshold : list num) (evt idx : nat) (row : list num) (thr t0 : num) :
  idx_max !! evt = Some idx → rows v !! evt = Some row →
  threshold !! evt = Some thr → 0 < idx →
  outcome (body time v idx_max threshold evt) = Ok t0 ↔
  ∃ spline start,
    spline_fit time row = Ok spline
    ∧ time !! start_index spline time idx thr = Some start
    ∧ newton (λ x, sub (spline x) thr) start 500 = Ok t0.
Proof.
  intros Hidx Hrow Hthr Hpos. unfold tcross_event.
  rewrite Hidx, Hrow, Hthr, decide_True by done.
  destruct (spline_fit time row) as [spline|e].
  - destruct (time !! start_index spline time idx thr) as [start|] eqn:Hs.
    + cbn [outcome snd]. split.
      * intros H. exists spline, start. by rewrite Hs.
      * intros (spline' & start' & [= <-] & Hs' & Hn).
        rewrite Hs in Hs'. by injection Hs' as <-.
    + cbn [outcome snd]. split; [done|].
      intros (spline' & start' & [= <-] & Hs' & _). by rewrite Hs in Hs'.
  - cbn [outcome snd]. split; [done|]. by intros (? & ? & ? & _).
Qed.

End TcrossFacts.

(** ** Crossing time: the sentinel *)

Lemma sentinel_value : sentinel = fin (-1) 1 ∧ valid sentinel = false.
Proof. split; [by_evaluation | by vm_compute]. Qed.

(** C2.  An event whose normalised maximum is at sample 0 gets the
    sentinel -1.0, which the validity test [> -0.5] rejects, and neither
    the spline nor the root search is called for it: no call logged by the
    run belongs to the event, whatever the run does for the other events;
    when the run returns, the entry of the event is the sentinel; and the
    run does return as soon as the other events do. *)
Theorem tcross_sentinel_without_search
    (spline_fit : list Qc → list num → result (Qc → num))
    (newton : (Qc → num) → Qc → nat → result num)
    (v_in : array2 Qc) (percent_thresh dt gain_post : Qc) (pedestal_length : Z)
    (v : array2 num) (evt : nat) (row : list num) :
  calculate_voltages v_in gain_post pedestal_length = Ok v →
  rows v !! evt = Some row →
  row_argmax row = 0 →
  let run := calculate_tcross spline_fit newton v_in percent_thresh dt
               gain_post pedestal_length in
  let event := event_run spline_fit newton v_in percent_thresh dt
                 gain_post pedestal_length in
  (∀ c, c ∈ calls run → call_event c ≠ evt)
  ∧ (∀ t0s, outcome run = Ok t0s → t0s !! evt = Some sentinel)
  ∧ (shape1 v_in ≠ 0 →
     (∀ evt', evt' < shape0 v_in → evt' ≠ evt →
        ∃ t0, outcome (event evt') = Ok t0) →
     ∃ t0s, outcome run = Ok t0s ∧ t0s !! evt = Some sentinel)
  ∧ sentinel = fin (-1) 1
  ∧ valid sentinel = false.
Proof.
  intros Hv Hrow Harg run event.
  assert (evt < shape0 v_in) as Hevt.
  { destruct (calculate_voltages_shape _ _ _ _ Hv) as [_ <-].
    by eapply lookup_lt_Some. }
  destruct (calculate_tcross_cases spline_fit newton v_in percent_thresh dt
              gain_post pedestal_length)
    as [(e & Hrun & _ & Hwhy) | (v' & Hv' & Hnz & Hrun & Hev)].
  { subst run. rewrite Hrun. split_and!.
    - by intros c ?%elem_of_nil.
    - done.
    - intros Hnz _. destruct Hwhy as [->|?]; [|done].
      unfold calculate_voltages in Hv. by rewrite decide_True in Hv.
    - apply sentinel_value.
    - apply sentinel_value. }
  rewrite Hv in Hv'. injection Hv' as <-.
  assert (event evt = ([], Ok sentinel)) as Hbody.
  { subst event. rewrite Hev. apply body_sentinel.
    - by rewrite list_lookup_fmap, Hrow, <- Harg.
    - by rewrite Hrow.
    - by rewrite !list_lookup_fmap, Hrow. }
  assert (∀ t0s, outcome run = Ok t0s → t0s !! evt = Some sentinel) as Hval.
  { intros t0s Hok. subst run. rewrite Hrun in Hok.
    apply loop_from_ok in Hok as (_ & Hlt & _);
      [|by rewrite length_replicate].
    destruct (Hlt evt Hevt) as (t0 & Ht0 & Hl).
    fold event in Ht0. rewrite Hbody in Ht0. by injection Ht0 as <-. }
  split_and!.
  - intros c Hc Heq. subst run. rewrite Hrun in Hc.
    apply loop_from_calls in Hc as (evt' & _ & Hc).
    rewrite Hev in Hc. pose proof (body_calls _ _ _ _ _ _ _ _ Hc) as (Hce & _).
    rewrite Heq in Hce. subst evt'. rewrite <- Hev in Hc.
    fold event in Hc. rewrite Hbody in Hc. by apply elem_of_nil in Hc.
  - done.
  - intros _ Hothers.
    destruct (loop_from_returns event
                (replicate (shape0 v_in) (Some (Q2Qc 0))) (shape0 v_in))
      as [t0s Hok].
    { intros evt' Hlt. destruct (decide (evt' = evt)) as [->|Hne].
      - exists sentinel. by rewrite Hbody.
      - by apply Hothers. }
    exists t0s. subst run. rewrite Hrun. split; [done|].
    apply Hval. by rewrite Hrun.
  - apply sentinel_value.
  - apply sentinel_value.
Qed.

(** ** Crossing time: the root search *)

(** C3.  Every root search of a run is started with [maxiter = 500], and
    its outcome is the outcome of its event; an event that raises (a root
    search that did not converge, in particular) makes the whole run raise:
    the exception of the first such event reaches the caller and no list of
    crossing times is returned, so nothing is recorded for the event,
    neither the sentinel nor any other value. *)
Theorem root_search_capped_and_propagated
    (spline_fit : list Qc → list num → result (Qc → num))
    (newton : (Qc → num) → Qc → nat → result num)
    (v_in : array2 Qc) (percent_thresh dt gain_post : Qc)
    (pedestal_length : Z) :
  let run := calculate_tcross spline_fit newton v_in percent_thresh dt
               gain_post pedestal_length in
  let event := event_run spline_fit newton v_in percent_thresh dt
                 gain_post pedestal_length in
  (∀ evt x0 maxiter, RootSearch evt x0 maxiter ∈ calls run →
     maxiter = 500 ∧ evt < shape0 v_in
     ∧ ∃ f, outcome (event evt) = newton f x0 500)
  ∧ (∀ evt e, evt < shape0 v_in → outcome (event evt) = Raise e →
       ∃ e', outcome run = Raise e')
  ∧ (∀ evt e, evt < shape0 v_in → outcome (event evt) = Raise e →
       (∀ evt', evt' < evt → ∃ t0, outcome (event evt') = Ok t0) →
       outcome run = Raise e).
Proof.
  intros run event.
  destruct (calculate_tcross_cases spline_fit newton v_in percent_thresh dt
              gain_post pedestal_length)
    as [(e0 & Hrun & Hev & _) | (v & Hv & Hnz & Hrun & Hev)].
  { subst run event. rewrite Hrun. split_and!.
    - by intros evt x0 maxiter ?%elem_of_nil.
    - intros. by exists e0.
    - intros evt e _ He _. rewrite Hev in He. cbn in He. by injection He as <-. }
  subst run. rewrite Hrun. split_and!.
  - intros evt x0 maxiter Hc.
    apply loop_from_calls in Hc as (evt' & Hlt & Hc).
    subst event. rewrite Hev in Hc.
    pose proof (body_calls _ _ _ _ _ _ _ _ Hc) as (Hce & _ & Hroot).
    cbn in Hce. subst evt'.
    destruct (Hroot _ _ _ eq_refl) as (-> & f & Hf).
    split_and!; [done | done |]. exists f. by rewrite Hev.
  - intros evt e Hevt He.
    destruct (outcome (loop_from event
                         (replicate (shape0 v_in) (Some (Q2Qc 0)))
                         (shape0 v_in))) as [t0s|e'] eqn:Hok;
      [|by exists e'].
    apply loop_from_ok in Hok as (_ & Hlt & _);
      [|by rewrite length_replicate].
    destruct (Hlt evt Hevt) as (t0 & Ht0 & _). by rewrite He in Ht0.
  - intros evt e Hevt He Hbefore. by apply loop_from_raise with evt.
Qed.

(** ** Crossing time: the value *)

(** C1, as the code has it.  For an event whose normalised peak is at a
    sample index greater than 0, the crossing time that a returning run
    records is exactly the value the root search returns for
    [spline(t) - p * peak = 0], [peak] being the event's own maximum, when
    started at [time[argmin |spline(time[:idx_max]) - p * peak|]] and capped
    at 500 turns; and the run returns this value as soon as the spline fit
    and the root search of the event return and the other events return.
    The spline fit and the root search are arbitrary here: the script
    records what the root search returns without any check of its own. *)
Theorem tcross_is_root_search_result
    (spline_fit : list Qc → list num → result (Qc → num))
    (newton : (Qc → num) → Qc → nat → result num)
    (v_in : array2 Qc) (percent_thresh dt gain_post : Qc) (pedestal_length : Z)
    (v : array2 num) (evt : nat) (row : list num) :
  calculate_voltages v_in gain_post pedestal_length = Ok v →
  rows v !! evt = Some row →
  0 < row_argmax row →
  let run := calculate_tcross spline_fit newton v_in percent_thresh dt
               gain_post pedestal_length in
  let event := event_run spline_fit newton v_in percent_thresh dt
                 gain_post pedestal_length in
  let time := arange_times (shape1 v_in) dt in
  let threshold := mul (row_max row) (Some percent_thresh) in
  let found (t0 : num) :=
    ∃ spline start,
      spline_fit time row = Ok spline
      ∧ time !! start_index spline time (row_argmax row) threshold = Some start
      ∧ newton (λ x, sub (spline x) threshold) start 500 = Ok t0 in
  (∀ t0s, outcome run = Ok t0s → ∃ t0, t0s !! evt = Some t0 ∧ found t0)
  ∧ (∀ t0, found t0 → shape1 v_in ≠ 0 →
       (∀ evt', evt' < shape0 v_in → evt' ≠ evt →
          ∃ t, outcome (event evt') = Ok t) →
       ∃ t0s, outcome run = Ok t0s ∧ t0s !! evt = Some t0).
Proof.
  intros Hv Hrow Harg run event time threshold found.
  assert (evt < shape0 v_in) as Hevt.
  { destruct (calculate_voltages_shape _ _ _ _ Hv) as [_ <-].
    by eapply lookup_lt_Some. }
  destruct (calculate_tcross_cases spline_fit newton v_in percent_thresh dt
              gain_post pedestal_length)
    as [(e & Hrun & _ & Hwhy) | (v' & Hv' & Hnz & Hrun & Hev)].
  { subst run. rewrite Hrun. split; [done|].
    intros t0 _ Hnz _. destruct Hwhy as [->|?]; [|done].
    unfold calculate_voltages in Hv. by rewrite decide_True in Hv. }
  rewrite Hv in Hv'. injection Hv' as <-.
  assert (∀ t0, outcome (event evt) = Ok t0 ↔ found t0) as Hbody.
  { intros t0. subst event found. cbn beta. rewrite Hev.
    apply body_search.
    - by rewrite list_lookup_fmap, Hrow.
    - done.
    - by rewrite !list_lookup_fmap, Hrow.
    - done. }
  assert (∀ t0s, outcome run = Ok t0s →
            ∃ t0, t0s !! evt = Some t0 ∧ found t0) as Hval.
  { intros t0s Hok. subst run. rewrite Hrun in Hok.
    apply loop_from_ok in Hok as (_ & Hlt & _);
      [|by rewrite length_replicate].
    destruct (Hlt evt Hevt) as (t0 & Ht0 & Hl).
    exists t0. split; [done|]. by apply Hbody. }
  split; [done|].
  intros t0 Hfound _ Hothers.
  destruct (loop_from_returns event
              (replicate (shape0 v_in) (Some (Q2Qc 0))) (shape0 v_in))
    as [t0s Hok].
  { intros evt' Hlt. destruct (decide (evt' = evt)) as [->|Hne].
    - exists t0. by apply Hbody.
    - by apply Hothers. }
  assert (outcome run = Ok t0s) as Hok'
    by (subst run event; by rewrite Hrun).
  exists t0s. split; [done|].
  destruct (Hval t0s Hok') as (t0' & Hl & Hf').
  apply Hbody in Hfound, Hf'. rewrite Hfound in Hf'. by injection Hf' as <-.
Qed.

(** ** Crossing time: concrete runs *)

Lemma two_events_voltages :
  calculate_voltages two_events (qc 1 1) 1 = Ok two_events_normalised.
Proof. by_evaluation. Qed.

Lemma two_events_run :
  calculate_tcross Scipy.cubic_through_four Scipy.newton two_events
    (qc 1 4) (qc 1 1) (qc 1 1) 1 =
  ([SplineFit 1; RootSearch 1 (qc 2 1) 500], Ok [sentinel; fin 2 1]).
Proof. by_evaluation. Qed.

Lemma tcross_sentinel_without_search_witness :
  (∀ c, c ∈ calls (calculate_tcross Scipy.cubic_through_four Scipy.newton
                     two_events (qc 1 4) (qc 1 1) (qc 1 1) 1) →
        call_event c ≠ 0)
  ∧ ∃ t0s, outcome (calculate_tcross Scipy.cubic_through_four Scipy.newton
                      two_events (qc 1 4) (qc 1 1) (qc 1 1) 1) = Ok t0s
           ∧ t0s !! 0 = Some sentinel.
Proof.
  destruct (tcross_sentinel_without_search Scipy.cubic_through_four
              Scipy.newton two_events (qc 1 4) (qc 1 1) (qc 1 1) 1
              two_events_normalised 0
              [fin 0 1; fin (-4) 1; fin (-3) 1; fin (-2) 1])
    as (Hcalls & _ & Hret & _).
  - exact two_events_voltages.
  - reflexivity.
  - by vm_compute.
  - split; [exact Hcalls|]. apply Hret.
    + by vm_compute.
    + intros [|[|evt']] Hlt Hne; [done | | cbn in Hlt; lia].
      eexists. by vm_compute.
Defined.

Lemma root_search_capped_and_propagated_witness :
  outcome (calculate_tcross Scipy.cubic_through_four stalled_newton two_events
             (qc 1 4) (qc 1 1) (qc 1 1) 1) = Raise RuntimeError.
Proof.
  destruct (root_search_capped_and_propagated Scipy.cubic_through_four
              stalled_newton two_events (qc 1 4) (qc 1 1) (qc 1 1) 1)
    as (_ & _ & Hfirst).
  apply (Hfirst 1).
  - cbn. lia.
  - by vm_compute.
  - intros [|evt'] Hlt; [|lia]. eexists. by vm_compute.
Defined.

Lemma tcross_is_root_search_result_witness :
  ∃ t0, [sentinel; fin 2 1] !! 1 = Some t0
        ∧ ∃ spline start,
            Scipy.cubic_through_four (arange_times 4 (qc 1 1))
              [fin 0 1; fin 1 1; fin 1 2; fin 2 1] = Ok spline
            ∧ arange_times 4 (qc 1 1)
                !! start_index spline (arange_times 4 (qc 1 1))
                     (row_argmax [fin 0 1; fin 1 1; fin 1 2; fin 2 1])
                     (mul (row_max [fin 0 1; fin 1 1; fin 1 2; fin 2 1])
                          (Some (qc 1 4)))
              = Some start
            ∧ Scipy.newton
                (λ x, sub (spline x)
                        (mul (row_max [fin 0 1; fin 1 1; fin 1 2; fin 2 1])
                             (Some (qc 1 4))))
                start 500 = Ok t0.
Proof.
  destruct (tcross_is_root_search_result Scipy.cubic_through_four
              Scipy.newton two_events (qc 1 4) (qc 1 1) (qc 1 1) 1
              two_events_normalised 1
              [fin 0 1; fin 1 1; fin 1 2; fin 2 1])
    as (Hval & _).
  - exact two_events_voltages.
  - reflexivity.
  - vm_compute. lia.
  - apply (Hval [sentinel; fin 2 1]). by rewrite two_events_run.
Defined.

(** C1, counterexample.  Samples 0, 1, 0.5, 2 at times 0, 1, 2, 3 and
    [p = 0.25]: the threshold is 0.5, the sample before the peak closest to
    it is the third one (it is 0.5 itself), the root search starts on that
    root and returns its time, 2.  The waveform was already at 1 at time 1,
    and it is falling through the threshold at time 2. *)
Lemma returns_first_crossing_counterexample :
  outcome (calculate_tcross Scipy.cubic_through_four Scipy.newton bump
             (qc 1 4) (qc 1 1) (qc 1 1) 1) = Ok [fin 2 1]
  ∧ ltb (Scipy.lagrange (arange_times 4 (qc 1 1))
           [fin 0 1; fin 1 1; fin 1 2; fin 2 1] (qc 201 100))
        (fin 1 2) = true
  ∧ ¬ returns_first_crossing Scipy.cubic_through_four Scipy.newton.
Proof.
  assert (outcome (calculate_tcross Scipy.cubic_through_four Scipy.newton bump
             (qc 1 4) (qc 1 1) (qc 1 1) 1) = Ok [fin 2 1]) as Hrun
    by by_evaluation.
  split_and!; [done | by vm_compute |].
  intros Hclaim.
  destruct (Hclaim bump (qc 1 4) (qc 1 1) (qc 1 1) 1%Z
              (Array2 4 [[fin 0 1; fin 1 1; fin 1 2; fin 2 1]]) 0
              [fin 0 1; fin 1 1; fin 1 2; fin 2 1] [fin 2 1])
    as (t0 & Ht0 & Hfirst).
  - by vm_compute.
  - by vm_compute.
  - by_evaluation.
  - reflexivity.
  - vm_compute. lia.
  - exact Hrun.
  - injection Ht0 as <-.
    specialize (Hfirst 1 (qc 1 1) (fin 1 1)).
    assert (ltb (fin 1 1) (mul (row_max [fin 0 1; fin 1 1; fin 1 2; fin 2 1])
                             (Some (qc 1 4))) = false) as Hlt
      by by vm_compute.
    rewrite Hfirst in Hlt; [done | by_evaluation | reflexivity | by vm_compute].
Qed.

(** ** The watch loop *)

Section WatchFacts.

Variable extract_dataset : string → result capture.
Variable simps_weights : list Qc → result (list num).
Variable spline_fit : list Qc → list num → result (Qc → num).
Variable newton : (Qc → num) → Qc → nat → result num.
Variable cfg : config.

Local Abbreviation job :=
  (plotting_job extract_dataset simps_weights spline_fit newton).
Local Abbreviation files_loop :=
  (process_files extract_dataset simps_weights spline_fit newton cfg).
Local Abbreviation turn :=
  (watch_turn extract_dataset simps_weights spline_fit newton cfg).
Local Abbreviation loop :=
  (watch_loop extract_dataset simps_weights spline_fit newton cfg).

Lemma process_files_ok (files : list string) (processed : gset string) :
  (∀ afile, afile ∈ files → ∃ r, job afile cfg = Ok r) →
  files_loop files processed = Running (list_to_set files ∪ processed).
Proof.
  revert processed. induction files as [|afile rest IH]; intros processed Hok.
  - cbn. f_equal. set_solver.
  - cbn [process_files].
    destruct (Hok afile ltac:(left)) as [r ->].
    rewrite IH by (intros ? ?; apply Hok; by right).
    f_equal. set_solver.
Qed.

Lemma process_files_raise (before after : list string) (afile : string)
    (e : exn) (processed : gset string) :
  (∀ f, f ∈ before → ∃ r, job f cfg = Ok r) →
  job afile cfg = Raise e →
  files_loop (before ++ afile :: after) processed =
    Terminated e (list_to_set before ∪ processed).
Proof.
  revert processed.
  induction before as [|f before IH]; intros processed Hok Hraise.
  - cbn [app process_files]. rewrite Hraise. f_equal. set_solver.
  - cbn [app process_files].
    destruct (Hok f ltac:(left)) as [r ->].
    rewrite IH by (try done; intros ? ?; apply Hok; by right).
    f_equal. set_solver.
Qed.

Lemma watch_turn_ok (files processed : gset string) :
  (∀ afile, afile ∈ files → ∃ r, job afile cfg = Ok r) →
  turn (Running processed) files = Running (files ∪ processed).
Proof.
  intros Hok. cbn [watch_turn]. case_decide as Hsize.
  - apply size_empty_inv in Hsize. f_equal.
    apply set_eq. intros x. rewrite elem_of_union.
    split; [by right|]. intros [Hx|Hx]; [|done].
    destruct (decide (x ∈ processed)) as [|Hnot]; [done|].
    assert (x ∈ files ∖ processed) as Hin by by apply elem_of_difference.
    rewrite Hsize in Hin. by apply elem_of_empty in Hin.
  - rewrite process_files_ok.
    + f_equal. rewrite list_to_set_elements_L.
      apply set_eq. intros x. rewrite !elem_of_union, elem_of_difference.
      destruct (decide (x ∈ processed)); naive_solver.
    + intros afile Hin. apply Hok. set_solver.
Qed.

Lemma watch_loop_terminated (e : exn) (processed : gset string)
    (listings : list (gset string)) :
  foldl turn (Terminated e processed) listings = Terminated e processed.
Proof. induction listings as [|files listings IH]; [done|]. by cbn. Qed.

Lemma watch_loop_running (listings : list (gset string))
    (processed : gset string) :
  (∀ files afile, files ∈ listings → afile ∈ files →
     ∃ r, job afile cfg = Ok r) →
  foldl turn (Running processed) listings =
    Running (⋃ listings ∪ processed).
Proof.
  revert processed.
  induction listings as [|files listings IH]; intros processed Hok.
  - cbn. f_equal. set_solver.
  - cbn [foldl]. rewrite watch_turn_ok
      by (intros afile ?; apply (Hok files); [by left | done]).
    rewrite IH by (intros fs afile ? ?; apply (Hok fs); [by right | done]).
    f_equal. cbn [union_list]. set_solver.
Qed.

End WatchFacts.

(** C9, as the code has it.  Nothing catches an exception of
    [plotting_job]: the file loop stops at the first file whose job
    raises, with the files before it recorded and neither that file nor
    the files after it; the watch loop is then over, whatever the
    directory shows later.  The files are isolated only in that the
    single state carried from one to the next is the set of processed
    names: as long as every job returns, the loop keeps running and has
    processed every file listed. *)
Theorem watch_loop_ends_with_exception
    (extract_dataset : string → result capture)
    (simps_weights : list Qc → result (list num))
    (spline_fit : list Qc → list num → result (Qc → num))
    (newton : (Qc → num) → Qc → nat → result num)
    (cfg : config) :
  let job := plotting_job extract_dataset simps_weights spline_fit newton in
  let files_loop :=
    process_files extract_dataset simps_weights spline_fit newton cfg in
  let loop :=
    watch_loop extract_dataset simps_weights spline_fit newton cfg in
  (∀ before afile after e processed,
     (∀ f, f ∈ before → ∃ r, job f cfg = Ok r) →
     job afile cfg = Raise e →
     files_loop (before ++ afile :: after) processed =
       Terminated e (list_to_set before ∪ processed))
  ∧ (∀ listings more e processed,
       loop listings = Terminated e processed →
       loop (listings ++ more) = Terminated e processed)
  ∧ (∀ listings,
       (∀ files afile, files ∈ listings → afile ∈ files →
          ∃ r, job afile cfg = Ok r) →
       loop listings = Running (⋃ listings)).
Proof.
  intros job files_loop loop. subst job files_loop loop. split_and!.
  - intros. by apply process_files_raise.
  - intros listings more e processed Hend. unfold watch_loop in *.
    by rewrite foldl_app, Hend, watch_loop_terminated.
  - intros listings Hok. unfold watch_loop.
    rewrite watch_loop_running by done. f_equal. set_solver.
Qed.

(** C9, counterexample.  A capture in which no event passes the
    coincidence gate leaves [plot_charge] with an empty array, whose
    [np.min] raises [ValueError]; the exception ends the watch loop, and
    the capture that shows up next, which the job handles, is never
    processed. *)
Lemma files_isolated_counterexample :
  plotting_job disk Scipy.simps_weights Scipy.cubic_through_four Scipy.newton
    "quiet.hdf5" scope_config = Raise ValueError
  ∧ (∃ r, plotting_job disk Scipy.simps_weights Scipy.cubic_through_four
            Scipy.newton "pulse.hdf5" scope_config = Ok r)
  ∧ watch_loop disk Scipy.simps_weights Scipy.cubic_through_four Scipy.newton
      scope_config [ {["quiet.hdf5"]}; {["quiet.hdf5"; "pulse.hdf5"]} ]
    = Terminated ValueError ∅
  ∧ ¬ files_isolated
        (plotting_job disk Scipy.simps_weights Scipy.cubic_through_four
           Scipy.newton)
        (watch_loop disk Scipy.simps_weights Scipy.cubic_through_four
           Scipy.newton)
        scope_config.
Proof.
  assert (watch_loop disk Scipy.simps_weights Scipy.cubic_through_four
            Scipy.newton scope_config
            [ {["quiet.hdf5"]}; {["quiet.hdf5"; "pulse.hdf5"]} ]
          = Terminated ValueError ∅) as Hloop by (vm_compute; reflexivity).
  split_and!.
  - by vm_compute.
  - eexists. vm_compute. reflexivity.
  - exact Hloop.
  - intros Hclaim.
    destruct (Hclaim [ {["quiet.hdf5"]}; {["quiet.hdf5"; "pulse.hdf5"]} ])
      as (processed & Hrun & _).
    rewrite Hloop in Hrun. discriminate Hrun.
Qed.

Lemma watch_loop_ends_with_exception_witness :
  process_files disk Scipy.simps_weights Scipy.cubic_through_four Scipy.newton
    scope_config ["pulse.hdf5"; "quiet.hdf5"; "pulse.hdf5"] ∅
  = Terminated ValueError (list_to_set ["pulse.hdf5"] ∪ ∅).
Proof.
  destruct (watch_loop_ends_with_exception disk Scipy.simps_weights
              Scipy.cubic_through_four Scipy.newton scope_config)
    as (Hstop & _ & _).
  apply (Hstop ["pulse.hdf5"] "quiet.hdf5" ["pulse.hdf5"]).
  - intros f ->%list_elem_of_singleton. eexists. vm_compute. reflexivity.
  - by vm_compute.
Defined.

(** * Further properties of the pipeline *)

(** ** [np.max] and [np.argmax] on one event *)

Lemma foldl_num_max_nan (r : list num) : foldl num_max NaN r = NaN.
Proof. induction r as [|x r IH]; [done|]. by cbn. Qed.

Lemma argmax_from_nan (bi i : nat) (r : list num) :
  argmax_from (bi, NaN) i r = bi.
Proof. by destruct r. Qed.

Lemma num_max_fin (a b : Qc) :
  num_max (Some b) (Some a) = Some (if decide (b < a)%Qc then a else b).
Proof. reflexivity. Qed.

(** The scan of [np.argmax], with what it has seen so far: [pre] has been
    read, its largest item is [b], first met at position [bi]. *)
Lemma argmax_from_scan (pre : list num) (bi : nat) (b : Qc) (r : list num) :
  bi < length pre →
  pre !! bi = Some (Some b) →
  (∀ j x, pre !! j = Some x → ∃ a, x = Some a ∧ (a ≤ b)%Qc) →
  (∀ j x, j < bi → pre !! j = Some x → ∃ a, x = Some a ∧ (a < b)%Qc) →
  let k := argmax_from (bi, Some b) (length pre) r in
  let m := foldl num_max (Some b) r in
  k < length (pre ++ r)
  ∧ (pre ++ r) !! k = Some m
  ∧ (∀ j x, j < k → (pre ++ r) !! j = Some x →
       ∃ a, x = Some a ∧ ∀ c, m = Some c → (a < c)%Qc)
  ∧ (∀ c, m = Some c →
       ∀ j x, (pre ++ r) !! j = Some x → ∃ a, x = Some a ∧ (a ≤ c)%Qc).
Proof.
  unfold num in *. revert pre bi b.
  induction r as [|x r IH]; intros pre bi b Hbi Hat Hle Hlt.
  - cbn [argmax_from foldl fst snd]. rewrite app_nil_r. split_and!.
    + done.
    + done.
    + intros j y Hj Hy. destruct (Hlt j y Hj Hy) as (a & -> & Ha).
      exists a. split; [done|]. by intros c [= <-].
    + intros c [= <-] j y Hy. by apply (Hle j).
  - destruct x as [a|].
    + cbn [argmax_from foldl fst snd]. rewrite num_max_fin.
      assert (length (pre ++ [Some a]) = S (length pre)) as Hlen
        by (rewrite length_app; cbn; lia).
      rewrite (cons_middle (Some a) pre r), (assoc_L (++)).
      destruct (decide (b < a)%Qc) as [Hba|Hba].
      * rewrite <- Hlen. apply IH.
        -- rewrite length_app. cbn. lia.
        -- rewrite lookup_app_r by lia. by rewrite Nat.sub_diag.
        -- intros j y Hy. apply lookup_app_Some in Hy as [Hy|[_ Hy]].
           ++ destruct (Hle j y Hy) as (c & -> & Hc). exists c.
              split; [done|]. apply Qclt_le_weak.
              by apply Qcle_lt_trans with b.
           ++ apply list_lookup_singleton_Some in Hy as [_ <-].
              exists a. split; [done | apply Qcle_refl].
        -- intros j y Hj Hy. rewrite lookup_app_l in Hy by lia.
           destruct (Hle j y Hy) as (c & -> & Hc). exists c.
           split; [done|]. by apply Qcle_lt_trans with b.
      * rewrite <- Hlen. apply IH.
        -- rewrite length_app. cbn. lia.
        -- by rewrite lookup_app_l by lia.
        -- intros j y Hy. apply lookup_app_Some in Hy as [Hy|[_ Hy]].
           ++ by apply (Hle j).
           ++ apply list_lookup_singleton_Some in Hy as [_ <-].
              exists a. split; [done | by apply Qcnot_lt_le].
        -- intros j y Hj Hy. rewrite lookup_app_l in Hy by lia.
           by apply (Hlt j).
    + cbn [argmax_from foldl fst snd num_max].
      rewrite foldl_num_max_nan. split_and!.
      * rewrite length_app. cbn. lia.
      * rewrite lookup_app_r by lia. by rewrite Nat.sub_diag.
      * intros j y Hj Hy. rewrite lookup_app_l in Hy by lia.
        destruct (Hle j y Hy) as (c & -> & _). exists c. by split.
      * done.
Qed.

Lemma row_argmax_spec (row : list num) :
  row ≠ [] →
  row_argmax row < length row
  ∧ row !! row_argmax row = Some (row_max row)
  ∧ (∀ j x, j < row_argmax row → row !! j = Some x →
       ∃ a, x = Some a ∧ ∀ m, row_max row = Some m → (a < m)%Qc)
  ∧ (∀ m, row_max row = Some m →
       ∀ j x, row !! j = Some x → ∃ a, x = Some a ∧ (a ≤ m)%Qc).
Proof.
  destruct row as [|x r]; [done|]. intros _.
  destruct x as [b|].
  - apply (argmax_from_scan [Some b] 0 b r).
    + cbn. lia.
    + done.
    + intros j y Hy. apply list_lookup_singleton_Some in Hy as [_ <-].
      exists b. split; [done | apply Qcle_refl].
    + intros j y Hj. lia.
  - cbn [row_argmax row_max]. rewrite argmax_from_nan, foldl_num_max_nan.
    split_and!; [cbn; lia | done | intros; lia | done].
Qed.


(** X1.  On a non-empty event [np.argmax] is a valid position, the item at
    that position is [np.max] of the event, every item before it is a
    number strictly below the maximum (NaN aside, where the items before the
    first NaN are numbers), and a numeric maximum is an upper bound of the
    whole event. *)
Theorem argmax_is_first_max (row : list num) :
  row ≠ [] →
  row_argmax row < length row
  ∧ row !! row_argmax row = Some (row_max row)
  ∧ (∀ j x, j < row_argmax row → row !! j = Some x →
       ∃ a, x = Some a ∧ ∀ m, row_max row = Some m → (a < m)%Qc)
  ∧ (∀ m, row_max row = Some m →
       ∀ j x, row !! j = Some x → ∃ a, x = Some a ∧ (a ≤ m)%Qc).
Proof. exact (row_argmax_spec row). Qed.

Lemma argmax_is_first_max_witness :
  row_argmax [fin 1 1; fin 3 1; fin 2 1; fin 3 1] = 1
  ∧ [fin 1 1; fin 3 1; fin 2 1; fin 3 1] !! 1
      = Some (row_max [fin 1 1; fin 3 1; fin 2 1; fin 3 1]).
Proof.
  split; [by vm_compute|].
  replace 1 with (row_argmax [fin 1 1; fin 3 1; fin 2 1; fin 3 1]) at 1
    by (by vm_compute).
  by apply (argmax_is_first_max [fin 1 1; fin 3 1; fin 2 1; fin 3 1]).
Defined.

(** ** The features of the selected events *)

Local Open Scope Qc_scope.

Lemma select_fmap {A B} (f : A → B) (mask : list bool) (l : list A) :
  select mask (f <$> l) = f <$> select mask l.
Proof.
  unfold select. revert l.
  induction mask as [|b mask IH]; intros [|x l]; try done.
  cbn. rewrite IH. by destruct b.
Qed.

Lemma index_mask_events (mask : list bool) (d : list (array2 Qc)) (ich : nat) :
  index (mask_events mask d) ich =
    (λ a, Array2 (shape1 a) (select mask (rows a))) <$> index d ich.
Proof.
  unfold index, mask_events. rewrite list_lookup_fmap.
  by destruct (d !! ich).
Qed.

Lemma calculate_voltages_select (mask : list bool) (a : array2 Qc) (g : Qc)
    (pl : Z) :
  calculate_voltages (Array2 (shape1 a) (select mask (rows a))) g pl =
    (λ v, Array2 (shape1 v) (select mask (rows v))) <$>
      calculate_voltages a g pl.
Proof.
  unfold calculate_voltages. case_decide; [done|]. cbn [fmap result_fmap].
  f_equal. unfold amap, calculate_voltages_raw. cbn [shape1 rows].
  by rewrite !select_fmap.
Qed.

(** X7.  Selecting events commutes with the per-event features: the
    amplitudes (resp. charges) of the selected events of a channel are the
    selected amplitudes (resp. charges) of all its events, so
    [plot_amplitude] and [calculate_charge] on [data[:, mask, :]] compute
    nothing that the unmasked computation would not. *)
Theorem features_of_selected_events
    (simps_weights : list Qc → result (list num))
    (mask : list bool) (d : list (array2 Qc)) (ich : nat) (a : array2 Qc)
    (dt transCond gain_post : Qc) (pedestal_length : Z) (charge_norm : Qc) :
  plot_amplitude (mask_events mask d) ich gain_post pedestal_length =
    select mask <$> plot_amplitude d ich gain_post pedestal_length
  ∧ calculate_charge simps_weights
        (Array2 (shape1 a) (select mask (rows a))) dt transCond gain_post
        pedestal_length charge_norm =
      select mask <$>
        calculate_charge simps_weights a dt transCond gain_post
          pedestal_length charge_norm.
Proof.
  split.
  - unfold plot_amplitude. rewrite index_mask_events.
    destruct (index d ich) as [v_in|e]; [|done].
    cbn [fmap result_fmap mbind result_bind]. unfold amplitude.
    rewrite calculate_voltages_select.
    destruct (calculate_voltages v_in gain_post pedestal_length) as [v|e];
      [|done].
    cbn [fmap result_fmap mbind result_bind]. unfold np_max_axis.
    cbn [shape1 rows]. case_decide; [done|].
    cbn [fmap result_fmap]. by rewrite select_fmap.
  - unfold calculate_charge. rewrite calculate_voltages_select.
    destruct (calculate_voltages a gain_post pedestal_length) as [v|e];
      [|done].
    cbn [fmap result_fmap mbind result_bind shape1].
    case_decide; [done|]. unfold simps.
    destruct (simps_weights _) as [ws|e]; [|done].
    cbn [fmap result_fmap mbind result_bind amap rows].
    by rewrite !select_fmap.
Qed.

(** ** The crossing-time run as a whole *)

Local Close Scope Qc_scope.

Lemma argmin_from_nan (bi i : nat) (r : list num) :
  argmin_from (bi, NaN) i r = bi.
Proof. by destruct r. Qed.

Lemma argmin_from_bound (best : nat * num) (i : nat) (r : list num) :
  best.1 < i → argmin_from best i r < i + length r.
Proof.
  unfold num in *.
  revert best i. induction r as [|x r IH]; intros [bi [b|]] i Hbi;
    cbn [fst] in Hbi.
  - cbn. lia.
  - cbn. lia.
  - destruct x as [a|]; cbn [argmin_from fst snd length].
    + case_decide.
      * pose proof (IH (i, Some a) (S i) ltac:(cbn; lia)).
        unfold num in *. lia.
      * pose proof (IH (bi, Some b) (S i) ltac:(cbn; lia)).
        unfold num in *. lia.
    + lia.
  - rewrite argmin_from_nan. cbn. lia.
Qed.

Lemma row_argmin_bound (r : list num) : r ≠ [] → row_argmin r < length r.
Proof.
  destruct r as [|x r]; [done|]. intros _. cbn [row_argmin length].
  pose proof (argmin_from_bound (0, x) 1 r ltac:(cbn; lia)).
  unfold num in *. lia.
Qed.

Lemma start_index_bound (spline : Qc → num) (time : list Qc) (idx : nat)
    (thr : num) :
  0 < idx → time ≠ [] →
  start_index spline time idx thr < idx
  ∧ start_index spline time idx thr < length time.
Proof.
  intros Hidx Htime. unfold start_index.
  set (l := (λ t, abs (sub (spline t) thr)) <$> take idx time).
  assert (length l = idx `min` length time) as Hlen
    by (subst l; by rewrite length_fmap, length_take).
  assert (l ≠ []) as Hne.
  { intros Hnil. rewrite Hnil in Hlen. cbn in Hlen.
    destruct time; [done|]. cbn in Hlen. lia. }
  pose proof (row_argmin_bound l Hne). lia.
Qed.

Lemma arange_times_lookup (n : nat) (dt : Qc) (j : nat) (t : Qc) :
  arange_times n dt !! j = Some t → j < n ∧ t = (of_nat j * dt)%Qc.
Proof.
  unfold arange_times. rewrite list_lookup_fmap.
  destruct (seq 0 n !! j) as [i|] eqn:Hj; [|done].
  apply lookup_seq in Hj as [-> ?]. cbn. intros [= <-]. by split.
Qed.

Lemma arange_times_length (n : nat) (dt : Qc) :
  length (arange_times n dt) = n.
Proof. unfold arange_times. by rewrite length_fmap, length_seq. Qed.

Section RunFacts.

Variable spline_fit : list Qc → list num → result (Qc → num).
Variable newton : (Qc → num) → Qc → nat → result num.

Lemma body_value (time : list Qc) (v : array2 num) (idx_max : list nat)
    (threshold : list num) (evt : nat) (t0 : num) :
  outcome (tcross_event spline_fit newton time v idx_max threshold evt)
    = Ok t0 →
  t0 = sentinel ∨ ∃ f x0, newton f x0 500 = Ok t0.
Proof.
  unfold tcross_event.
  destruct (idx_max !! evt) as [idx|]; [|done].
  destruct (rows v !! evt) as [row|]; [|done].
  destruct (threshold !! evt) as [thr|]; [|done].
  case_decide; [|intros [= <-]; by left].
  destruct (spline_fit time row) as [spline|e]; [|done].
  destruct (time !! _) as [start|]; [|done].
  cbn [outcome snd]. intros Hn. right. eauto.
Qed.

Lemma body_start (time : list Qc) (v : array2 num) (idx_max : list nat)
    (threshold : list num) (evt evt' : nat) (x0 : Qc) (maxiter : nat) :
  RootSearch evt' x0 maxiter
    ∈ calls (tcross_event spline_fit newton time v idx_max threshold evt) →
  ∃ idx spline thr,
    idx_max !! evt = Some idx ∧ 0 < idx
    ∧ time !! start_index spline time idx thr = Some x0.
Proof.
  unfold tcross_event.
  destruct (idx_max !! evt) as [idx|]; [|by intros ?%elem_of_nil].
  destruct (rows v !! evt) as [row|]; [|by intros ?%elem_of_nil].
  destruct (threshold !! evt) as [thr|]; [|by intros ?%elem_of_nil].
  case_decide; [|by intros ?%elem_of_nil].
  destruct (spline_fit time row) as [spline|e].
  - destruct (time !! _) as [start|] eqn:Hstart.
    + cbn [calls fst].
      intros [[=]|[[= -> -> ->]|?%elem_of_nil]%elem_of_cons]%elem_of_cons;
        [|done]. eauto 10.
    + cbn [calls fst]. by intros [[=]|?%elem_of_nil]%elem_of_cons.
  - cbn [calls fst]. by intros [[=]|?%elem_of_nil]%elem_of_cons.
Qed.

(** The body raises only what the spline fit or the root search of its
    event raised: its own index computations stay in range. *)
Lemma body_raises (time : list Qc) (v : array2 num) (idx_max : list nat)
    (threshold : list num) (evt idx : nat) (row : list num) (thr : num)
    (e : exn) :
  time ≠ [] →
  idx_max !! evt = Some idx → rows v !! evt = Some row →
  threshold !! evt = Some thr →
  outcome (tcross_event spline_fit newton time v idx_max threshold evt)
    = Raise e →
  0 < idx
  ∧ (spline_fit time row = Raise e
     ∨ ∃ spline start,
         spline_fit time row = Ok spline
         ∧ time !! start_index spline time idx thr = Some start
         ∧ newton (λ x, sub (spline x) thr) start 500 = Raise e).
Proof.
  intros Htime Hidx Hrow Hthr. unfold tcross_event.
  rewrite Hidx, Hrow, Hthr.
  case_decide as Hpos; [|done].
  destruct (spline_fit time row) as [spline|e'].
  - destruct (start_index_bound spline time idx thr Hpos Htime) as [_ Hlt].
    apply lookup_lt_is_Some in Hlt as [start Hstart]. rewrite Hstart.
    cbn [outcome snd]. intros Hn. split; [done|]. right. eauto.
  - cbn [outcome snd]. intros [= ->]. split; [done|]. by left.
Qed.

End RunFacts.

(** X8.  A run of [calculate_tcross] that returns gives one crossing time
    per event, and each of them is either the sentinel or the value that a
    root search capped at 500 turns returned: no entry keeps the initial
    zero of the array. *)
Theorem tcross_one_time_per_event
    (spline_fit : list Qc → list num → result (Qc → num))
    (newton : (Qc → num) → Qc → nat → result num)
    (v_in : array2 Qc) (percent_thresh dt gain_post : Qc)
    (pedestal_length : Z) (t0s : list num) :
  outcome (calculate_tcross spline_fit newton v_in percent_thresh dt
             gain_post pedestal_length) = Ok t0s →
  length t0s = shape0 v_in
  ∧ ∀ evt, evt < shape0 v_in →
      ∃ t0, t0s !! evt = Some t0
            ∧ (t0 = sentinel ∨ ∃ f x0, newton f x0 500 = Ok t0).
Proof.
  intros Hok.
  destruct (calculate_tcross_cases spline_fit newton v_in percent_thresh dt
              gain_post pedestal_length)
    as [(e & Hrun & _) | (v & Hv & Hnz & Hrun & Hev)];
    rewrite Hrun in Hok; [done|].
  apply loop_from_ok in Hok as (Hlen & Hlt & _);
    [|by rewrite length_replicate].
  rewrite length_replicate in Hlen. split; [done|].
  intros evt Hevt. destruct (Hlt evt Hevt) as (t0 & Ht0 & Hl).
  exists t0. split; [done|]. rewrite Hev in Ht0.
  by eapply body_value.
Qed.

Lemma tcross_one_time_per_event_witness :
  length [sentinel; fin 2 1] = shape0 two_events.
Proof.
  apply (tcross_one_time_per_event Scipy.cubic_through_four Scipy.newton
           two_events (qc 1 4) (qc 1 1) (qc 1 1) 1 [sentinel; fin 2 1]).
  by rewrite two_events_run.
Defined.

(** X9.  Every root search of a run starts on the sample grid, at a sample
    time strictly before the peak of its event: the initial guess logged
    for event [evt] is [j * dt] for some [j] below [argmax] of the
    normalised event. *)
Theorem root_search_starts_before_peak
    (spline_fit : list Qc → list num → result (Qc → num))
    (newton : (Qc → num) → Qc → nat → result num)
    (v_in : array2 Qc) (percent_thresh dt gain_post : Qc)
    (pedestal_length : Z) (evt : nat) (x0 : Qc) (maxiter : nat) :
  RootSearch evt x0 maxiter
    ∈ calls (calculate_tcross spline_fit newton v_in percent_thresh dt
               gain_post pedestal_length) →
  ∃ v row j,
    calculate_voltages v_in gain_post pedestal_length = Ok v
    ∧ rows v !! evt = Some row
    ∧ j < row_argmax row
    ∧ j < shape1 v_in
    ∧ x0 = (of_nat j * dt)%Qc.
Proof.
  intros Hc.
  destruct (calculate_tcross_cases spline_fit newton v_in percent_thresh dt
              gain_post pedestal_length)
    as [(e & Hrun & _) | (v & Hv & Hnz & Hrun & Hev)];
    rewrite Hrun in Hc; [by apply elem_of_nil in Hc|].
  apply loop_from_calls in Hc as (evt' & Hlt & Hc). rewrite Hev in Hc.
  pose proof (body_calls _ _ _ _ _ _ _ _ Hc) as (Hce & _).
  cbn in Hce. subst evt'.
  apply body_start in Hc as (idx & spline & thr & Hidx & Hpos & Hstart).
  rewrite list_lookup_fmap in Hidx.
  destruct (rows v !! evt) as [row|] eqn:Hrow; [|done].
  injection Hidx as <-.
  assert (arange_times (shape1 v_in) dt ≠ []) as Htime.
  { intros Hnil%(f_equal length). rewrite arange_times_length in Hnil.
    by cbn in Hnil. }
  destruct (start_index_bound spline _ _ thr Hpos Htime) as [Hj _].
  apply arange_times_lookup in Hstart as [Hj' ->].
  exists v, row, (start_index spline (arange_times (shape1 v_in) dt)
                   (row_argmax row) thr).
  by split_and!.
Qed.

Lemma root_search_starts_before_peak_witness :
  ∃ v row j,
    calculate_voltages two_events (qc 1 1) 1 = Ok v
    ∧ rows v !! 1 = Some row
    ∧ j < row_argmax row
    ∧ j < shape1 two_events
    ∧ qc 2 1 = (of_nat j * qc 1 1)%Qc.
Proof.
  apply (root_search_starts_before_peak Scipy.cubic_through_four
           Scipy.newton two_events (qc 1 4) (qc 1 1) (qc 1 1) 1 1 (qc 2 1)
           500).
  rewrite two_events_run. cbn [calls fst]. apply elem_of_cons. right.
  apply elem_of_cons. by left.
Defined.

(** X10.  A run of [calculate_tcross] raises for one of three reasons
    only: a zero gain ([ZeroDivisionError]), an empty sample axis
    ([ValueError]), or the spline fit or the root search of an event whose
    peak is not at sample 0, which raised that very exception.  The index
    computations of the loop itself never raise. *)
Theorem tcross_raises_only_through_library
    (spline_fit : list Qc → list num → result (Qc → num))
    (newton : (Qc → num) → Qc → nat → result num)
    (v_in : array2 Qc) (percent_thresh dt gain_post : Qc)
    (pedestal_length : Z) (e : exn) :
  outcome (calculate_tcross spline_fit newton v_in percent_thresh dt
             gain_post pedestal_length) = Raise e →
  (gain_post = Q2Qc 0 ∧ e = ZeroDivisionError)
  ∨ (shape1 v_in = 0 ∧ e = ValueError)
  ∨ ∃ v evt row,
      calculate_voltages v_in gain_post pedestal_length = Ok v
      ∧ rows v !! evt = Some row
      ∧ 0 < row_argmax row
      ∧ (spline_fit (arange_times (shape1 v_in) dt) row = Raise e
         ∨ ∃ spline start,
             spline_fit (arange_times (shape1 v_in) dt) row = Ok spline
             ∧ arange_times (shape1 v_in) dt
                 !! start_index spline (arange_times (shape1 v_in) dt)
                      (row_argmax row)
                      (mul (row_max row) (Some percent_thresh))
               = Some start
             ∧ newton (λ x, sub (spline x)
                              (mul (row_max row) (Some percent_thresh)))
                 start 500 = Raise e).
Proof.
  intros Hraise.
  destruct (decide (gain_post = Q2Qc 0)) as [Hg|Hg].
  { left. split; [done|]. revert Hraise.
    unfold calculate_tcross, calculate_voltages. rewrite decide_True by done.
    cbn. by intros [= <-]. }
  destruct (calculate_tcross_cases spline_fit newton v_in percent_thresh dt
              gain_post pedestal_length)
    as [(e0 & Hrun & _ & [?|Hz]) | (v & Hv & Hnz & Hrun & Hev)]; [done| |].
  { right. left. split; [done|]. revert Hraise.
    unfold calculate_tcross, calculate_voltages. rewrite decide_False by done.
    rewrite pure_ok_bind. unfold np_argmax_axis. cbn [amap shape1].
    unfold calculate_voltages_raw. cbn [shape1].
    rewrite decide_True by done. rewrite pure_raise_bind.
    cbn. by intros [= <-]. }
  right. right. rewrite Hrun in Hraise.
  apply loop_from_raises in Hraise as (evt & Hevt & Hbody).
  rewrite Hev in Hbody.
  destruct (calculate_voltages_shape _ _ _ _ Hv) as [_ Hrows].
  assert (is_Some (rows v !! evt)) as [row Hrow]
    by (apply lookup_lt_is_Some; unfold shape0 in *; lia).
  eapply body_raises in Hbody as [Hpos Hwhy].
  - exists v, evt, row. split_and!; [done | done | exact Hpos | exact Hwhy].
  - intros Hnil%(f_equal length). rewrite arange_times_length in Hnil.
    by cbn in Hnil.
  - by rewrite list_lookup_fmap, Hrow.
  - done.
  - by rewrite !list_lookup_fmap, Hrow.
Qed.

(** Three samples are too few for a cubic spline: the fit raises, and so
    does the run. *)
Lemma tcross_raises_only_through_library_witness :
  (qc 1 1 = Q2Qc 0 ∧ ValueError = ZeroDivisionError)
  ∨ (shape1 (Array2 3 [[qc 0 1; qc 1 1; qc 2 1]]) = 0
     ∧ ValueError = ValueError)
  ∨ ∃ v evt row,
      calculate_voltages (Array2 3 [[qc 0 1; qc 1 1; qc 2 1]]) (qc 1 1) 1
        = Ok v
      ∧ rows v !! evt = Some row
      ∧ 0 < row_argmax row
      ∧ (Scipy.cubic_through_four (arange_times 3 (qc 1 1)) row
           = Raise ValueError
         ∨ ∃ spline start,
             Scipy.cubic_through_four (arange_times 3 (qc 1 1)) row
               = Ok spline
             ∧ arange_times 3 (qc 1 1)
                 !! start_index spline (arange_times 3 (qc 1 1))
                      (row_argmax row)
                      (mul (row_max row) (Some (qc 1 4)))
               = Some start
             ∧ Scipy.newton (λ x, sub (spline x)
                                    (mul (row_max row) (Some (qc 1 4))))
                 start 500 = Raise ValueError).
Proof.
  apply (tcross_raises_only_through_library Scipy.cubic_through_four
           Scipy.newton (Array2 3 [[qc 0 1; qc 1 1; qc 2 1]]) (qc 1 4)
           (qc 1 1) (qc 1 1) 1 ValueError).
  by vm_compute.
Defined.

(** ** What reaches the histograms *)

Lemma select_nil_r {A} (mask : list bool) : select mask (@nil A) = [].
Proof. by destruct mask. Qed.

Lemma select_cons {A} (b : bool) (mask : list bool) (x : A) (l : list A) :
  select (b :: mask) (x :: l) =
    if b then x :: select mask l else select mask l.
Proof. unfold select. cbn. by destruct b. Qed.

Lemma elem_of_select {A} (mask : list bool) (l : list A) (x : A) :
  x ∈ select mask l ↔ ∃ i, mask !! i = Some true ∧ l !! i = Some x.
Proof.
  revert l. induction mask as [|b mask IH]; intros l.
  - cbn. split; [by intros ?%elem_of_nil | by intros (i & ? & _)].
  - destruct l as [|y l].
    + rewrite select_nil_r. split; [by intros ?%elem_of_nil|].
      by intros (i & _ & ?).
    + rewrite select_cons. split.
      * destruct b.
        -- intros [->|Hx]%elem_of_cons; [by exists 0|].
           apply IH in Hx as (i & ? & ?). by exists (S i).
        -- intros Hx. apply IH in Hx as (i & ? & ?). by exists (S i).
      * intros ([|i] & Hm & Hl); cbn in Hm, Hl.
        -- injection Hm as ->. injection Hl as ->. by left.
        -- assert (x ∈ select mask l) by (apply IH; eauto).
           destruct b; [by right | done].
Qed.

Lemma select_all_false {A} (mask : list bool) (l : list A) :
  (∀ b, b ∈ mask → b = false) → select mask l = [].
Proof.
  intros Hall. destruct (select mask l) as [|x s] eqn:Hs; [done|].
  assert (x ∈ select mask l) as Hx by (rewrite Hs; by left).
  apply elem_of_select in Hx as (i & Hm & _).
  apply list_elem_of_lookup_2 in Hm. by apply Hall in Hm.
Qed.

Lemma zip_with_select {A B C} (f : A → B → C) (mask : list bool)
    (l : list A) (k : list B) :
  zip_with f (select mask l) (select mask k) = select mask (zip_with f l k).
Proof.
  revert l k. induction mask as [|b mask IH]; intros l k; [done|].
  destruct l as [|x l]; [by rewrite !select_nil_r|].
  destruct k as [|y k].
  { rewrite select_nil_r. cbn [zip_with]. rewrite select_nil_r.
    by destruct (select _ _). }
  cbn [zip_with]. rewrite !select_cons. destruct b; cbn [zip_with];
    by rewrite IH.
Qed.

Lemma nonempty_or_raise_ok {A} (l l' : list A) :
  nonempty_or_raise l = Ok l' → l' = l ∧ l ≠ [].
Proof. destruct l; [done|]. by intros [= <-]. Qed.

(** X11.  Without a trigger, what [plot_tcross] histograms is exactly the
    valid crossing times of the channel, those above -0.5: the sentinel
    never reaches the histogram.  The only failure is [ValueError], raised
    exactly when no crossing time is valid, in particular when every event
    got the sentinel. *)
Theorem histogram_excludes_sentinel (t0s : list num) :
  (∀ to_plot, plot_tcross t0s None = Ok to_plot →
     to_plot ≠ [] ∧ ∀ x, x ∈ to_plot ↔ x ∈ t0s ∧ valid x = true)
  ∧ (∀ e, plot_tcross t0s None = Raise e →
       e = ValueError ∧ ∀ x, x ∈ t0s → valid x = false)
  ∧ ((∀ x, x ∈ t0s → x = sentinel) →
       plot_tcross t0s None = Raise ValueError).
Proof.
  assert (∀ x, x ∈ select (valid <$> t0s) t0s ↔ x ∈ t0s ∧ valid x = true)
    as Hsel.
  { intros x. rewrite elem_of_select. split.
    - intros (i & Hm & Hl). rewrite list_lookup_fmap, Hl in Hm.
      injection Hm as Hm. split; [|done]. by eapply list_elem_of_lookup_2.
    - intros [Hx Hv]. apply list_elem_of_lookup in Hx as [i Hi].
      exists i. by rewrite list_lookup_fmap, Hi, <- Hv. }
  unfold plot_tcross. split_and!.
  - intros to_plot [-> Hne]%nonempty_or_raise_ok. by split.
  - intros e He.
    destruct (select (valid <$> t0s) t0s) as [|y s] eqn:Hs; [|done].
    injection He as <-. split; [done|]. intros x Hx.
    destruct (valid x) eqn:Hv; [|done].
    assert (x ∈ []) as Hin by (by apply Hsel).
    by apply elem_of_nil in Hin.
  - intros Hall.
    destruct (select (valid <$> t0s) t0s) as [|y s] eqn:Hs; [done|].
    assert (y ∈ t0s ∧ valid y = true) as [Hy Hv]
      by (apply Hsel; by left).
    apply Hall in Hy as ->. by vm_compute in Hv.
Qed.

Lemma histogram_excludes_sentinel_witness :
  plot_tcross [sentinel; sentinel] None = Raise ValueError.
Proof.
  apply (histogram_excludes_sentinel [sentinel; sentinel]).
  by intros x [->|[->|?%elem_of_nil]%elem_of_cons]%elem_of_cons.
Defined.

(** X12.  With a trigger channel, every value [plot_tcross] histograms is
    the difference [t0 - trigger_t0] of one event whose crossing time is
    valid on both the channel and the trigger: an event with a sentinel on
    either side contributes nothing. *)
Theorem histogram_of_differences (t0s trigger_t0s to_plot : list num) :
  plot_tcross t0s (Some trigger_t0s) = Ok to_plot →
  to_plot ≠ []
  ∧ ∀ d, d ∈ to_plot ↔
      ∃ evt t0 trig,
        t0s !! evt = Some t0 ∧ trigger_t0s !! evt = Some trig
        ∧ valid t0 = true ∧ valid trig = true ∧ d = sub t0 trig.
Proof.
  unfold plot_tcross. rewrite zip_with_select.
  intros [-> Hne]%nonempty_or_raise_ok. split; [done|].
  intros d. rewrite elem_of_select. split.
  - intros (evt & Hm & Hd).
    apply lookup_zip_with_Some in Hm as (b1 & b2 & Hb & Hb1 & Hb2).
    apply lookup_zip_with_Some in Hd as (t0 & trig & -> & Ht0 & Htrig).
    rewrite list_lookup_fmap, Ht0 in Hb1. injection Hb1 as <-.
    rewrite list_lookup_fmap, Htrig in Hb2. injection Hb2 as <-.
    symmetry in Hb. apply andb_true_iff in Hb as [? ?].
    exists evt, t0, trig. by split_and!.
  - intros (evt & t0 & trig & Ht0 & Htrig & Hv1 & Hv2 & ->).
    exists evt. split.
    + apply lookup_zip_with_Some. exists true, true.
      rewrite !list_lookup_fmap, Ht0, Htrig.
      cbn [fmap option_fmap option_map]. by rewrite Hv1, Hv2.
    + by rewrite lookup_zip_with, Ht0, Htrig.
Qed.

Lemma histogram_of_differences_witness :
  plot_tcross [fin 3 1; sentinel; fin 5 1] (Some [fin 1 1; fin 2 1; sentinel])
    = Ok [sub (fin 3 1) (fin 1 1)]
  ∧ [sub (fin 3 1) (fin 1 1)] ≠ [].
Proof.
  assert (plot_tcross [fin 3 1; sentinel; fin 5 1]
            (Some [fin 1 1; fin 2 1; sentinel])
          = Ok [sub (fin 3 1) (fin 1 1)]) as Hrun by by_evaluation.
  split; [done|].
  by apply (histogram_of_differences _ _ _ Hrun).
Defined.

(** ** A capture without coincident events *)

Section JobFacts.

Variable extract_dataset : string → result capture.
Variable simps_weights : list Qc → result (list num).
Variable spline_fit : list Qc → list num → result (Qc → num).
Variable newton : (Qc → num) → Qc → nat → result num.

Local Abbreviation step := (channel_step simps_weights spline_fit newton).

Lemma foldl_channel_raise (c : capture) (cfg : config) (mask : list bool)
    (e : exn) (chs : list nat) :
  foldl (step c cfg mask) (Raise e) chs = Raise e.
Proof. induction chs as [|ch chs IH]; [done|]. by cbn. Qed.

Lemma plot_charge_no_event (mask : list bool) (d : list (array2 Qc))
    (ich : nat) (dt transCond gain_post : Qc) :
  (∀ b, b ∈ mask → b = false) →
  raises (plot_charge simps_weights (mask_events mask d) ich dt transCond
            gain_post).
Proof.
  intros Hall. unfold plot_charge. rewrite index_mask_events.
  destruct (index d ich) as [a|e]; [|done].
  cbn [fmap result_fmap mbind result_bind].
  rewrite select_all_false by done.
  unfold calculate_charge, calculate_voltages.
  destruct (decide (gain_post = Q2Qc 0)); cbn [mbind result_bind]; [done|].
  destruct (decide (transCond = Q2Qc 0)); cbn [mbind result_bind]; [done|].
  unfold simps, amap, calculate_voltages_raw. cbn [rows fmap list_fmap].
  by destruct (simps_weights _) as [ws|e].
Qed.

Lemma channel_step_no_event (c : capture) (cfg : config) (mask : list bool)
    (s : channel_state) (ch : nat) :
  (∀ b, b ∈ mask → b = false) →
  chmask c !! ch = Some true →
  raises (step c cfg mask (Ok s) ch).
Proof.
  intros Hall Hactive. unfold channel_step, index. rewrite Hactive.
  cbn [mbind result_bind].
  destruct (gains cfg !! ch) as [thegain|]; [|done].
  cbn [mbind result_bind].
  destruct (plot_amplitude _ ch thegain _) as [pk|e]; [|done].
  cbn [mbind result_bind].
  pose proof (plot_charge_no_event mask (data c) ch (attr_dt c)
                (transcond_lowgain cfg) thegain Hall) as Hq.
  by destruct (plot_charge _ _ ch _ _ thegain).
Qed.

Lemma foldl_channels_no_event (c : capture) (cfg : config) (mask : list bool)
    (chs : list nat) (st : result channel_state) :
  (∀ b, b ∈ mask → b = false) →
  (∃ ch, ch ∈ chs ∧ chmask c !! ch = Some true) →
  raises (foldl (step c cfg mask) st chs).
Proof.
  intros Hall. revert st.
  induction chs as [|ch chs IH]; intros st (ch' & Hin & Hactive).
  - by apply elem_of_nil in Hin.
  - destruct st as [s|e]; [|by rewrite foldl_channel_raise].
    cbn [foldl]. destruct (decide (ch' = ch)) as [->|Hne].
    + pose proof (channel_step_no_event c cfg mask s ch Hall Hactive) as Hr.
      destruct (step c cfg mask (Ok s) ch) as [s'|e]; [done|].
      by rewrite foldl_channel_raise.
    + apply IH. exists ch'. split; [|done].
      by apply elem_of_cons in Hin as [?|?].
Qed.

(** X13.  A capture in which no event passes the coincidence gate cannot
    be processed: as soon as one of the four channels is active,
    [plotting_job] raises (the charge histogram of the first active channel
    has no event to take a minimum of, when nothing else failed before). *)
Theorem job_fails_without_coincidence (afile : string) (cfg : config)
    (c : capture) (mask : list bool) :
  extract_dataset afile = Ok c →
  coincidence_mask (data c) cfg = Ok mask →
  (∀ b, b ∈ mask → b = false) →
  (∃ ch, ch < 4 ∧ chmask c !! ch = Some true) →
  raises (plotting_job extract_dataset simps_weights spline_fit newton
            afile cfg).
Proof.
  intros Hc Hmask Hall (ch & Hch & Hactive).
  unfold plotting_job. rewrite Hc. cbn [mbind result_bind].
  rewrite Hmask. cbn [mbind result_bind].
  pose proof (foldl_channels_no_event c cfg mask (seq 0 4) (Ok (None, []))
                Hall) as Hr.
  destruct (foldl _ _ (seq 0 4)) as [s|e]; [|done].
  exfalso. apply Hr. exists ch. split; [|done].
  apply elem_of_seq. lia.
Qed.

End JobFacts.

Lemma job_fails_without_coincidence_witness :
  raises (plotting_job disk Scipy.simps_weights Scipy.cubic_through_four
            Scipy.newton "quiet.hdf5" scope_config).
Proof.
  apply (job_fails_without_coincidence disk Scipy.simps_weights
           Scipy.cubic_through_four Scipy.newton "quiet.hdf5" scope_config
           quiet_capture [false]).
  - reflexivity.
  - by vm_compute.
  - by intros b [->|?%elem_of_nil]%elem_of_cons.
  - exists 0. split; [lia | reflexivity].
Defined.

(** ** The record of the watch loop *)

Section WatchRecord.

Variable extract_dataset : string → result capture.
Variable simps_weights : list Qc → result (list num).
Variable spline_fit : list Qc → list num → result (Qc → num).
Variable newton : (Qc → num) → Qc → nat → result num.
Variable cfg : config.

Local Abbreviation job :=
  (plotting_job extract_dataset simps_weights spline_fit newton).
Local Abbreviation files_loop :=
  (process_files extract_dataset simps_weights spline_fit newton cfg).
Local Abbreviation turn :=
  (watch_turn extract_dataset simps_weights spline_fit newton cfg).

Lemma watcher_sound_mono (seen seen' : gset string) (w : watcher) :
  seen ⊆ seen' → watcher_sound job cfg seen w → watcher_sound job cfg seen' w.
Proof.
  intros Hsub. destruct w as [P|e P]; cbn.
  - intros H f Hf. destruct (H f Hf). split; [set_solver | done].
  - intros [H (f & Hf & He)]. split.
    + intros g Hg. destruct (H g Hg). split; [set_solver | done].
    + exists f. split; [set_solver | done].
Qed.

Lemma process_files_sound (seen : gset string) (files : list string)
    (processed : gset string) :
  (∀ f, f ∈ files → f ∈ seen) →
  watcher_sound job cfg seen (Running processed) →
  watcher_sound job cfg seen (files_loop files processed).
Proof.
  revert processed.
  induction files as [|afile rest IH]; intros processed Hin Hsound; [done|].
  cbn [process_files].
  destruct (job afile cfg) as [r|e] eqn:Hjob.
  - apply IH; [intros f ?; apply Hin; by right|].
    cbn. intros f [->%elem_of_singleton|Hf]%elem_of_union.
    + split; [apply Hin; by left | eauto].
    + by apply Hsound.
  - cbn. split; [done|]. exists afile. split; [apply Hin; by left | done].
Qed.

Lemma watch_turn_sound (seen files : gset string) (w : watcher) :
  watcher_sound job cfg seen w →
  watcher_sound job cfg (files ∪ seen) (turn w files).
Proof.
  intros Hsound.
  assert (watcher_sound job cfg (files ∪ seen) w) as Hsound'
    by (eapply watcher_sound_mono; [|done]; set_solver).
  destruct w as [processed|e processed]; [|done].
  cbn [watch_turn]. case_decide; [done|].
  apply process_files_sound; [|done].
  intros f Hf%elem_of_elements. set_solver.
Qed.

Lemma watch_loop_sound (listings : list (gset string)) (seen : gset string)
    (w : watcher) :
  watcher_sound job cfg seen w →
  watcher_sound job cfg (⋃ listings ∪ seen) (foldl turn w listings).
Proof.
  revert seen w.
  induction listings as [|files listings IH]; intros seen w Hsound.
  - cbn. eapply watcher_sound_mono; [|done]. set_solver.
  - cbn [foldl]. eapply watcher_sound_mono;
      [|apply IH, watch_turn_sound, Hsound].
    cbn [union_list]. set_solver.
Qed.

End WatchRecord.

(** X14.  A directory listing that shows nothing new leaves the watch loop
    as it is, whatever the jobs of the listed files would do: files that
    are recorded as processed are never processed again. *)
Theorem processed_files_are_skipped
    (extract_dataset : string → result capture)
    (simps_weights : list Qc → result (list num))
    (spline_fit : list Qc → list num → result (Qc → num))
    (newton : (Qc → num) → Qc → nat → result num)
    (cfg : config) (files processed_files : gset string) :
  files ⊆ processed_files →
  watch_turn extract_dataset simps_weights spline_fit newton cfg
    (Running processed_files) files = Running processed_files.
Proof.
  intros Hsub. cbn [watch_turn].
  rewrite decide_True; [done|].
  apply size_empty_iff. set_solver.
Qed.

(** A file system on which every job raises: the processed file is skipped
    all the same. *)
Lemma processed_files_are_skipped_witness :
  watch_turn (λ _, Raise OSError) Scipy.simps_weights
    Scipy.cubic_through_four Scipy.newton scope_config
    (Running {["a.hdf5"; "b.hdf5"]}) {["a.hdf5"]}
  = Running {["a.hdf5"; "b.hdf5"]}.
Proof.
  apply processed_files_are_skipped. set_solver.
Defined.

(** X15.  At every moment the record of the watch loop is sound: each file
    recorded as processed was listed in the directory and its job
    returned; and if the loop has been ended by an exception, that
    exception was raised by the job of a listed file. *)
Theorem watch_loop_record_is_sound
    (extract_dataset : string → result capture)
    (simps_weights : list Qc → result (list num))
    (spline_fit : list Qc → list num → result (Qc → num))
    (newton : (Qc → num) → Qc → nat → result num)
    (cfg : config) (listings : list (gset string)) :
  watcher_sound
    (plotting_job extract_dataset simps_weights spline_fit newton) cfg
    (⋃ listings)
    (watch_loop extract_dataset simps_weights spline_fit newton cfg listings).
Proof.
  unfold watch_loop. rewrite <- (right_id_L ∅ (∪) (⋃ listings)).
  apply watch_loop_sound. cbn. by intros f ?%elem_of_empty.
Qed.

(** ** Reading a capture *)

Lemma active_before_0 (mask : list bool) : active_before mask 0 = 0.
Proof. reflexivity. Qed.

Lemma active_before_S (mask : list bool) (n : nat) :
  active_before mask (S n) =
    active_before mask n
    + match mask !! n with Some true => 1 | _ => 0 end.
Proof.
  unfold active_before. destruct (mask !! n) as [b|] eqn:Hn.
  - rewrite (take_S_r _ _ _ Hn), filter_app, length_app.
    destruct b; by rewrite ?filter_singleton_True, ?filter_singleton_False.
  - apply lookup_ge_None in Hn. rewrite !take_ge by lia. lia.
Qed.

Lemma active_before_mono (mask : list bool) (n m : nat) :
  n ≤ m → active_before mask n ≤ active_before mask m.
Proof.
  induction 1 as [|m _ IH]; [done|]. rewrite active_before_S. lia.
Qed.

Lemma reshape2_row (events npoints : nat) (row : list Qc) (j : nat) :
  j < events →
  rows (reshape2 events npoints row) !! j
    = Some (take npoints (drop (j * npoints) row)).
Proof.
  intros Hj. unfold reshape2. cbn [rows].
  by rewrite list_lookup_fmap, lookup_seq_lt.
Qed.

Lemma reshape2_sample (events npoints : nat) (row : list Qc) (j k : nat)
    (r : list Qc) :
  rows (reshape2 events npoints row) !! j = Some r →
  k < npoints →
  r !! k = row !! (j * npoints + k).
Proof.
  unfold reshape2. cbn [rows]. rewrite list_lookup_fmap.
  destruct (seq 0 events !! j) as [j'|] eqn:Hj; [|done].
  apply lookup_seq in Hj as [-> _]. cbn. intros [= <-] Hk.
  by rewrite lookup_take_lt, lookup_drop.
Qed.

Lemma reshape2_concat (events npoints : nat) (row : list Qc) :
  concat (rows (reshape2 events npoints row)) = take (events * npoints) row.
Proof.
  unfold reshape2. cbn [rows].
  induction events as [|n IH]; [done|].
  rewrite seq_S, fmap_app, concat_app, IH. cbn.
  rewrite app_nil_r, take_take_drop. f_equal. lia.
Qed.

Lemma reshape2_spec (events npoints : nat) (row : list Qc) :
  length row = events * npoints →
  concat (rows (reshape2 events npoints row)) = row
  ∧ wf (reshape2 events npoints row)
  ∧ shape0 (reshape2 events npoints row) = events
  ∧ ∀ j k r, rows (reshape2 events npoints row) !! j = Some r →
      k < npoints → r !! k = row !! (j * npoints + k).
Proof.
  intros Hlen. split_and!.
  - rewrite reshape2_concat. apply take_ge. lia.
  - unfold wf, reshape2. cbn [rows shape1].
    apply Forall_fmap, Forall_forall. intros j Hj%elem_of_seq. cbn.
    rewrite length_take, length_drop. nia.
  - unfold shape0, reshape2. cbn [rows]. by rewrite length_fmap, length_seq.
  - intros j k r. apply reshape2_sample.
Qed.


(** X16.  Reshaping a stored row into events loses and reorders nothing:
    when the row has [events * npoints] samples, the events laid end to end
    are the row again, every event has [npoints] samples, and sample [k] of
    event [j] is sample [j * npoints + k] of the row. *)
Theorem reshape2_round_trip (events npoints : nat) (row : list Qc) :
  length row = events * npoints →
  concat (rows (reshape2 events npoints row)) = row
  ∧ wf (reshape2 events npoints row)
  ∧ shape0 (reshape2 events npoints row) = events
  ∧ ∀ j k r, rows (reshape2 events npoints row) !! j = Some r →
      k < npoints → r !! k = row !! (j * npoints + k).
Proof. apply reshape2_spec. Qed.

Lemma reshape2_round_trip_witness :
  concat (rows (reshape2 2 3 [qc 1 1; qc 2 1; qc 3 1; qc 4 1; qc 5 1; qc 6 1]))
    = [qc 1 1; qc 2 1; qc 3 1; qc 4 1; qc 5 1; qc 6 1].
Proof.
  by apply (reshape2_round_trip 2 3
              [qc 1 1; qc 2 1; qc 3 1; qc 4 1; qc 5 1; qc 6 1]).
Defined.

Section ExtractFacts.

Variable f : h5_dataset.
Variable events : nat.

Local Abbreviation mask := (h5_chmask f).
Local Abbreviation step := (extract_step f events).

Lemma extract_fold_raise (e : exn) (chs : list nat) :
  foldl step (Raise e) chs = Raise e.
Proof. induction chs as [|ch chs IH]; [done|]. by cbn. Qed.

(** What the loop over the channels has done when it returns. *)
Lemma extract_fold_ok (d0 : list (array2 Qc)) (n : nat)
    (d : list (array2 Qc)) (ich : nat) :
  n ≤ length d0 →
  foldl step (Ok (d0, 0)) (seq 0 n) = Ok (d, ich) →
  ich = active_before mask n
  ∧ ich ≤ length (rows (stored f))
  ∧ length d = length d0
  ∧ (∀ i, n ≤ i → d !! i = d0 !! i)
  ∧ (∀ i, i < n →
       ∃ b, mask !! i = Some b
            ∧ if (b : bool) then
                ∃ row, rows (stored f) !! active_before mask i = Some row
                       ∧ d !! i = Some (calibrate (vertical f i).1
                                          (vertical f i).2
                                          (reshape2 events (nPt f) row))
              else d !! i = d0 !! i).
Proof.
  revert d ich. induction n as [|n IH]; intros d ich Hn Hok.
  - cbn in Hok. injection Hok as <- <-.
    split_and!; [done | lia | done | done | intros; lia].
  - rewrite seq_S, foldl_app in Hok. cbn [foldl Nat.add] in Hok.
    destruct (foldl step (Ok (d0, 0)) (seq 0 n)) as [[d' ich']|e] eqn:Hrun;
      [|done].
    destruct (IH d' ich' ltac:(lia) eq_refl)
      as (Hich & Hle & Hlen & Hge & Hlt).
    unfold extract_step, index in Hok. cbn [mbind result_bind] in Hok.
    destruct (mask !! n) as [b|] eqn:Hb; [|done].
    cbn [mbind result_bind snd fst] in Hok. destruct b.
    + destruct (rows (stored f) !! ich') as [row|] eqn:Hrow; [|done].
      cbn [mbind result_bind] in Hok. injection Hok as <- <-.
      apply lookup_lt_Some in Hrow as Hrow'.
      split_and!.
      * rewrite active_before_S, Hb. lia.
      * lia.
      * by rewrite length_insert.
      * intros i Hi. rewrite list_lookup_insert_ne by lia. apply Hge. lia.
      * intros i Hi. destruct (decide (i = n)) as [->|Hne].
        -- exists true. split; [done|]. exists row. subst ich'.
           split; [done|]. apply list_lookup_insert_eq. lia.
        -- destruct (Hlt i ltac:(lia)) as (b & Hbi & Hd). exists b.
           split; [done|]. destruct b.
           ++ destruct Hd as (r & ? & ?). exists r.
              by rewrite list_lookup_insert_ne.
           ++ by rewrite list_lookup_insert_ne.
    + injection Hok as <- <-. split_and!.
      * rewrite active_before_S, Hb. lia.
      * done.
      * done.
      * intros i Hi. apply Hge. lia.
      * intros i Hi. destruct (decide (i = n)) as [->|Hne].
        -- exists false. split; [done|]. apply Hge. lia.
        -- apply Hlt. lia.
Qed.

(** When the loop over the channels returns. *)
Lemma extract_fold_returns (d0 : list (array2 Qc)) (n : nat) :
  n ≤ length mask →
  active_before mask n ≤ length (rows (stored f)) →
  ∃ d, foldl step (Ok (d0, 0)) (seq 0 n) = Ok (d, active_before mask n).
Proof.
  induction n as [|n IH]; intros Hn Hrows; [by exists d0|].
  rewrite active_before_S in Hrows |- *.
  destruct IH as [d' Hrun]; [lia | lia |].
  rewrite seq_S, foldl_app, Hrun. cbn [foldl Nat.add].
  unfold extract_step, index. cbn [mbind result_bind].
  destruct (lookup_lt_is_Some_2 mask n ltac:(lia)) as [b Hb].
  rewrite Hb in Hrows |- *. cbn [mbind result_bind snd fst]. destruct b.
  - destruct (lookup_lt_is_Some_2 (rows (stored f)) (active_before mask n)
                ltac:(lia)) as [row ->].
    cbn [mbind result_bind]. eexists. do 2 f_equal. lia.
  - eexists. do 2 f_equal. lia.
Qed.

End ExtractFacts.

Lemma extract_capture_ok (f : h5_dataset) (c : capture) :
  extract_capture f = Ok c →
  shape1 (stored f) = shape1 (stored f) / nPt f * nPt f
  ∧ ∃ d ich,
      foldl (extract_step f (shape1 (stored f) / nPt f))
        (Ok (replicate 4 (zeros2 (shape1 (stored f) / nPt f) (nPt f)), 0))
        (seq 0 4) = Ok (d, ich)
      ∧ c = Capture d (h5_chmask f) (h5_dt f).
Proof.
  unfold extract_capture. cbn zeta. case_decide as Hshape; [|done].
  destruct (foldl _ _ (seq 0 4)) as [[d ich]|e]; [|done].
  cbn [mbind result_bind mret result_ret fst]. intros [= <-].
  split; [lia|]. by exists d, ich.
Qed.

(** X17.  [extract_dataset] accepts a file exactly when the stored rows are
    a whole number of events of [nPt] samples, the channel mask has at
    least four entries, and the file stores at least as many rows as the
    mask has active channels among the first four.  A file that stores too
    few rows for its mask is refused; rows in excess are not noticed. *)
Theorem extract_capture_accepts (f : h5_dataset) :
  (∃ c, extract_capture f = Ok c) ↔
  shape1 (stored f) = shape1 (stored f) / nPt f * nPt f
  ∧ 4 ≤ length (h5_chmask f)
  ∧ active_before (h5_chmask f) 4 ≤ length (rows (stored f)).
Proof.
  split.
  - intros [c (Hshape & d & ich & Hrun & _)%extract_capture_ok].
    apply extract_fold_ok in Hrun as (-> & Hle & _ & _ & Hlt);
      [|by rewrite length_replicate].
    split_and!; [done | | done].
    destruct (Hlt 3 ltac:(lia)) as (b & Hb%lookup_lt_Some & _). lia.
  - intros (Hshape & Hmask & Hrows).
    destruct (extract_fold_returns f (shape1 (stored f) / nPt f)
                (replicate 4 (zeros2 (shape1 (stored f) / nPt f) (nPt f)))
                4 Hmask Hrows) as [d Hrun].
    unfold extract_capture. cbn zeta. rewrite decide_True by lia.
    rewrite Hrun. by eexists.
Qed.

Lemma extract_capture_accepts_witness :
  (∃ c, extract_capture
          (H5Dataset (Array2 4 [[qc 1 1; qc 2 1; qc 3 1; qc 4 1]])
             (λ _, (qc 2 1, qc 1 1)) 2 [false; true; false; false] (qc 1 10))
        = Ok c)
  ∧ ¬ (∃ c, extract_capture
              (H5Dataset (Array2 4 [[qc 1 1; qc 2 1; qc 3 1; qc 4 1]])
                 (λ _, (qc 2 1, qc 1 1)) 2 [true; true; false; false]
                 (qc 1 10))
            = Ok c).
Proof.
  split.
  - apply extract_capture_accepts.
    split_and!; [by vm_compute | cbn; lia | vm_compute; lia].
  - intros (_ & _ & H)%extract_capture_accepts. vm_compute in H. lia.
Defined.

(** X18.  What [extract_dataset] returns always has four channels, each of
    them a well-formed array of [row length / nPt] events of [nPt]
    samples, together with the channel mask and the sample interval of the
    file. *)
Theorem extract_capture_shape (f : h5_dataset) (c : capture) :
  extract_capture f = Ok c →
  wf (stored f) →
  length (data c) = 4
  ∧ chmask c = h5_chmask f
  ∧ attr_dt c = h5_dt f
  ∧ ∀ a, a ∈ data c →
      shape1 a = nPt f
      ∧ shape0 a = shape1 (stored f) / nPt f
      ∧ wf a.
Proof.
  intros (Hshape & d & ich & Hrun & ->)%extract_capture_ok Hwf.
  apply extract_fold_ok in Hrun as (_ & _ & Hlen & _ & Hlt);
    [|by rewrite length_replicate].
  rewrite length_replicate in Hlen. cbn [data chmask attr_dt].
  split_and!; [done | done | done |].
  set (events := shape1 (stored f) / nPt f) in *.
  assert (shape1 (zeros2 events (nPt f)) = nPt f
          ∧ shape0 (zeros2 events (nPt f)) = events
          ∧ wf (zeros2 events (nPt f))) as Hzeros.
  { unfold zeros2, shape0, wf. cbn [shape1 rows].
    split_and!; [done | by rewrite length_replicate |].
    apply Forall_replicate. by rewrite length_replicate. }
  intros a [i Hi]%list_elem_of_lookup.
  apply lookup_lt_Some in Hi as Hi4. rewrite Hlen in Hi4.
  destruct (Hlt i Hi4) as ([|] & _ & Hd).
  - destruct Hd as (row & Hrow & Hd). rewrite Hi in Hd. injection Hd as ->.
    assert (length row = events * nPt f) as Hrowlen.
    { apply list_elem_of_lookup_2 in Hrow.
      unfold wf in Hwf. rewrite Forall_forall in Hwf.
      rewrite (Hwf row Hrow). done. }
    destruct (reshape2_spec events (nPt f) row Hrowlen)
      as (_ & Hwf' & Hev & _).
    unfold calibrate, amap, shape0, wf in *. cbn [shape1 rows] in *.
    split_and!; [done | by rewrite length_fmap |].
    apply Forall_fmap. eapply Forall_impl; [exact Hwf'|].
    cbn. intros r Hr. by rewrite length_fmap.
  - rewrite Hi in Hd. symmetry in Hd.
    apply lookup_replicate in Hd as [-> _]. done.
Qed.

Lemma extract_capture_shape_witness :
  let f := H5Dataset (Array2 4 [[qc 1 1; qc 2 1; qc 3 1; qc 4 1]])
             (λ _, (qc 2 1, qc 1 1)) 2 [false; true; false; false]
             (qc 1 10) in
  let c := Capture [zeros2 2 2;
                    calibrate (qc 2 1) (qc 1 1)
                      (reshape2 2 2 [qc 1 1; qc 2 1; qc 3 1; qc 4 1]);
                    zeros2 2 2; zeros2 2 2]
             [false; true; false; false] (qc 1 10) in
  extract_capture f = Ok c
  ∧ wf (stored f)
  ∧ length (data c) = 4
  ∧ chmask c = h5_chmask f
  ∧ attr_dt c = h5_dt f
  ∧ ∀ a, a ∈ data c →
      shape1 a = nPt f
      ∧ shape0 a = shape1 (stored f) / nPt f
      ∧ wf a.
Proof.
  intros f c.
  assert (extract_capture f = Ok c) as Hrun by reflexivity.
  assert (wf (stored f)) as Hwf by (by repeat constructor).
  split; [exact Hrun|]. split; [exact Hwf|].
  exact (extract_capture_shape f c Hrun Hwf).
Defined.

(** X19.  In what [extract_dataset] returns, an inactive channel is all
    zeros, and an active channel [i] is read from the stored row whose
    number is the count of active channels below [i]: sample [k] of event
    [j] is [(x - yzero) * ymult] for [x] the sample [j * nPt + k] of that
    row and [(ymult, yzero)] the calibration of channel [i]. *)
Theorem extract_capture_channels (f : h5_dataset) (c : capture) (i : nat)
    (b : bool) :
  extract_capture f = Ok c →
  i < 4 →
  h5_chmask f !! i = Some b →
  if b then
    ∃ row a,
      rows (stored f) !! active_before (h5_chmask f) i = Some row
      ∧ data c !! i = Some a
      ∧ ∀ j k r, rows a !! j = Some r → k < nPt f →
          r !! k = (λ x, ((x - (vertical f i).2) * (vertical f i).1)%Qc)
                     <$> row !! (j * nPt f + k)
  else data c !! i = Some (zeros2 (shape1 (stored f) / nPt f) (nPt f)).
Proof.
  intros (Hshape & d & ich & Hrun & ->)%extract_capture_ok Hi Hb.
  apply extract_fold_ok in Hrun as (_ & _ & _ & _ & Hlt);
    [|by rewrite length_replicate].
  destruct (Hlt i Hi) as (b' & Hb' & Hd). rewrite Hb in Hb'.
  injection Hb' as <-. cbn [data]. destruct b.
  - destruct Hd as (row & Hrow & Hd). exists row. eexists.
    split_and!; [done | done |].
    intros j k r Hr Hk. unfold calibrate, amap in Hr. cbn [rows] in Hr.
    rewrite list_lookup_fmap in Hr.
    destruct (rows (reshape2 _ (nPt f) row) !! j) as [r0|] eqn:Hr0; [|done].
    injection Hr as <-. rewrite list_lookup_fmap.
    by rewrite (reshape2_sample _ _ _ _ _ _ Hr0 Hk).
  - rewrite Hd. apply lookup_replicate. split; [done | lia].
Qed.

Lemma extract_capture_channels_witness :
  ∃ row a,
    [[qc 1 1; qc 2 1; qc 3 1; qc 4 1]] !! active_before
        [false; true; false; false] 1 = Some row
    ∧ [zeros2 2 2;
       calibrate (qc 2 1) (qc 1 1)
         (reshape2 2 2 [qc 1 1; qc 2 1; qc 3 1; qc 4 1]);
       zeros2 2 2; zeros2 2 2] !! 1 = Some a
    ∧ ∀ j k r, rows a !! j = Some r → k < 2 →
        r !! k = (λ x, ((x - qc 1 1) * qc 2 1)%Qc) <$> row !! (j * 2 + k).
Proof.
  apply (extract_capture_channels
           (H5Dataset (Array2 4 [[qc 1 1; qc 2 1; qc 3 1; qc 4 1]])
              (λ _, (qc 2 1, qc 1 1)) 2 [false; true; false; false]
              (qc 1 10))
           (Capture [zeros2 2 2;
                     calibrate (qc 2 1) (qc 1 1)
                       (reshape2 2 2 [qc 1 1; qc 2 1; qc 3 1; qc 4 1]);
                     zeros2 2 2; zeros2 2 2]
              [false; true; false; false] (qc 1 10)) 1 true).
  - reflexivity.
  - lia.
  - reflexivity.
Defined.

(** ** File names *)

Lemma rfind_last_none (c : ascii) (s : str) : c ∉ s → rfind_last c s = None.
Proof.
  induction s as [|x s IH]; [done|]. intros Hc.
  apply not_elem_of_cons in Hc as [Hne Hc]. cbn. rewrite IH by done.
  by rewrite decide_False.
Qed.

Lemma rfind_last_app (c : ascii) (pre ext : str) :
  c ∉ ext → rfind_last c (pre ++ c :: ext) = Some (length pre).
Proof.
  intros Hc. induction pre as [|x pre IH].
  - cbn. rewrite rfind_last_none by done. by rewrite decide_True.
  - cbn. by rewrite IH.
Qed.

Lemma split_nonempty (c : ascii) (s : str) : split c s ≠ [].
Proof.
  destruct s as [|x s]; [done|]. cbn. case_decide; [done|].
  by destruct (split c s).
Qed.

Lemma split_no_separator (c : ascii) (w : str) : c ∉ w → split c w = [w].
Proof.
  induction w as [|x w IH]; [done|]. intros Hc.
  apply not_elem_of_cons in Hc as [Hne Hc]. cbn.
  rewrite decide_False by done. by rewrite IH.
Qed.

Lemma split_snoc (c : ascii) (p w : str) :
  c ∉ w → split c (p ++ c :: w) = split c p ++ [w].
Proof.
  intros Hc. induction p as [|x p IH].
  - cbn. rewrite decide_True by done. by rewrite split_no_separator.
  - cbn. case_decide; [by rewrite IH|]. rewrite IH.
    pose proof (split_nonempty c p). by destruct (split c p).
Qed.

Lemma join_cons (c : ascii) (w : str) (ws : list str) :
  ws ≠ [] → join c (w :: ws) = w ++ c :: join c ws.
Proof. by destruct ws. Qed.

Lemma join_split (c : ascii) (s : str) : join c (split c s) = s.
Proof.
  induction s as [|x s IH]; [done|]. cbn [split].
  pose proof (split_nonempty c s) as Hne. case_decide as Hx.
  - rewrite join_cons by done. cbn. by rewrite IH, Hx.
  - destruct (split c s) as [|w ws]; [done|].
    destruct ws as [|w' ws].
    + cbn in IH |- *. by rewrite IH.
    + rewrite join_cons in IH |- * by done. by rewrite <- IH.
Qed.

Lemma split_pieces (c : ascii) (s : str) : Forall (λ w, c ∉ w) (split c s).
Proof.
  induction s as [|x s IH]; [by repeat constructor; apply not_elem_of_nil|].
  cbn [split]. case_decide.
  - constructor; [apply not_elem_of_nil | done].
  - destruct (split c s) as [|w ws].
    + repeat constructor. by intros ->%list_elem_of_singleton.
    + apply Forall_cons in IH as [Hw Hws]. constructor; [|done].
      by intros [->|?]%elem_of_cons.
Qed.

(** X20.  The default output directory is the input path without its last
    component: for [data_path = parent/name] it is [parent], so a trailing
    slash ([name] empty) makes it the input directory itself, and a path
    without any slash makes it the empty string. *)
Theorem out_path_is_parent (parent name : str) :
  "/"%char ∉ name →
  out_path (parent ++ "/"%char :: name) = parent
  ∧ out_path name = [].
Proof.
  intros Hname. unfold out_path. split.
  - rewrite split_snoc by done. unfold slice_to. rewrite decide_False by lia.
    rewrite length_app. cbn [length].
    replace (length (split "/" parent) + 1 - Z.to_nat (- -1))
      with (length (split "/" parent)) by lia.
    by rewrite take_app_length, join_split.
  - by rewrite split_no_separator.
Qed.

Lemma out_path_is_parent_witness :
  out_path (String.list_ascii_of_string "data/run1/")
    = String.list_ascii_of_string "data/run1".
Proof.
  apply (out_path_is_parent (String.list_ascii_of_string "data/run1") []).
  apply not_elem_of_nil.
Defined.

(** X21.  The report of a capture file is named after the file: for
    [afile = prefix ++ stem ++ "." ++ ext], where [prefix] is empty or ends
    with a slash, [stem] has no slash and [ext] has no dot, the name is
    [stem ++ ".pdf"] (dots in [stem] are kept).  A name without any dot
    loses its last character instead. *)
Theorem outfile_is_stem_pdf (dir stem ext : str) (x : ascii) :
  "/"%char ∉ stem →
  "."%char ∉ ext →
  outfile (stem ++ "."%char :: ext) = stem ++ [".";"p";"d";"f"]%char
  ∧ outfile (dir ++ "/"%char :: stem ++ "."%char :: ext)
      = stem ++ [".";"p";"d";"f"]%char
  ∧ ("."%char ∉ stem → x ≠ "."%char →
       outfile (stem ++ [x]) = stem ++ [".";"p";"d";"f"]%char).
Proof.
  intros Hstem Hext. unfold outfile, rfind, last_piece. split_and!.
  - rewrite rfind_last_app by done. unfold slice_to.
    rewrite decide_True by lia. rewrite Nat2Z.id, take_app_length.
    by rewrite split_no_separator.
  - replace (dir ++ "/"%char :: stem ++ "."%char :: ext)
      with ((dir ++ "/"%char :: stem) ++ "."%char :: ext)
      by (by rewrite <- app_assoc).
    rewrite rfind_last_app by done. unfold slice_to.
    rewrite decide_True by lia. rewrite Nat2Z.id, take_app_length.
    by rewrite split_snoc, last_snoc.
  - intros Hdot Hx. rewrite rfind_last_none.
    + unfold slice_to. rewrite decide_False by lia.
      rewrite length_app. cbn [length].
      replace (length stem + 1 - Z.to_nat (- -1)) with (length stem) by lia.
      by rewrite take_app_length, split_no_separator.
    + intros [?|?%list_elem_of_singleton]%elem_of_app; [done|].
      by apply Hx.
Qed.

Lemma outfile_is_stem_pdf_witness :
  outfile (String.list_ascii_of_string "data/run1/cap.1.hdf5")
    = String.list_ascii_of_string "cap.1.pdf".
Proof.
  apply (outfile_is_stem_pdf (String.list_ascii_of_string "data/run1")
           (String.list_ascii_of_string "cap.1")
           (String.list_ascii_of_string "hdf5") "x"%char).
  - apply (bool_decide_unpack _). by vm_compute.
  - apply (bool_decide_unpack _). by vm_compute.
Defined.

(** ** One value per event *)

(** X22.  With a nonzero gain, the amplitude of an array without samples
    raises [ValueError] (the maximum of an empty event), and otherwise the
    amplitude returns one value per event; the charge, when it returns,
    also has one value per event. *)
Theorem one_feature_per_event
    (simps_weights : list Qc → result (list num))
    (v_in : array2 Qc) (dt transCond gain_post : Qc) (pedestal_length : Z)
    (charge_norm : Qc) :
  gain_post ≠ Q2Qc 0 →
  (shape1 v_in = 0 →
     amplitude v_in gain_post pedestal_length = Raise ValueError)
  ∧ (shape1 v_in ≠ 0 →
       ∃ pk, amplitude v_in gain_post pedestal_length = Ok pk
             ∧ length pk = shape0 v_in)
  ∧ (∀ charges,
       calculate_charge simps_weights v_in dt transCond gain_post
         pedestal_length charge_norm = Ok charges →
       length charges = shape0 v_in).
Proof.
  intros Hg.
  destruct (calculate_voltages v_in gain_post pedestal_length) as [v|e]
    eqn:Hv;
    [|unfold calculate_voltages in Hv; by rewrite decide_False in Hv].
  destruct (calculate_voltages_shape _ _ _ _ Hv) as [Hs1 Hs0].
  unfold amplitude, calculate_charge. rewrite Hv.
  cbn [mbind result_bind]. unfold np_max_axis. rewrite Hs1. split_and!.
  - intros Hz. by rewrite decide_True.
  - intros Hnz. rewrite decide_False by done. eexists. split; [done|].
    by rewrite length_fmap.
  - intros charges. case_decide; [done|]. unfold simps.
    destruct (simps_weights _) as [ws|e]; [|done].
    cbn [mbind result_bind amap rows]. intros [= <-].
    by rewrite !length_fmap.
Qed.

Lemma one_feature_per_event_witness :
  amplitude (Array2 0 [[]; []]) (qc (-1) 1) 400 = Raise ValueError.
Proof.
  apply (one_feature_per_event Scipy.simps_weights (Array2 0 [[]; []])
           (qc 1 1) (qc 1 1) (qc (-1) 1) 400 (qc 1 1)).
  - by vm_compute.
  - reflexivity.
Defined.
